(** * A reduced, ordered decision-diagram engine: model and verification

    The development embeds [src/include/karnaugh.h] (namespace [logic]):
    the canonical node store [global_node_sink] with [emplace] and [bind],
    the constructor [literal], the memoised complement [invert] and the
    memoised generalised apply [join] with its instances [conjoin] and
    [disjoin].  [src/include/dag_logic.h] holds the same routines in
    namespace [dag].

    Pointers are modelled as addresses.  A [std::set<node>] owned by a caller
    is identified by its own address (a [nat]); an element of such a set is
    identified by the set it lives in and by the order in which it was
    allocated there.  Elements of a [std::set] never move and the code never
    erases one, so this pair is a faithful stand-in for the element address. *)

From stdpp Require Import base decidable numbers option list countable gmap.

Set Default Proof Using "Type".
Set Warnings "-clear-no-such-hyp".

(** * Part I: the program *)

(** ** Data model *)

(** [const node*]: one of the two process-wide sentinels [ZERO] and [ONE]
    (declared in the absent [dag.h]; the code only ever compares them by
    identity) or the address of an element of some store.  A [Ptr] whose slot
    does not exist stands for any pointer that does not point to a live
    node. *)
Inductive ref : Type :=
  | ZERO
  | ONE
  | Ptr (store slot : nat).

Global Instance ref_eq_dec : EqDecision ref.
Proof. solve_decision. Defined.

Global Instance ref_countable : Countable ref.
Proof.
  refine (inj_countable'
    (λ r, match r with
          | ZERO => inl false
          | ONE => inl true
          | Ptr s i => inr (s, i)
          end)
    (λ e, match e with
          | inl false => ZERO
          | inl true => ONE
          | inr (s, i) => Ptr s i
          end) _).
  by intros [].
Defined.

(** Modelled from the spec: [dag.h], which declares [node], is not among the
    sources.  A node is an immutable value with the three fields [depth]
    (a [uint32_t], read with [depth()]), [negative_child] and
    [positive_child] (read with [negative()] and [positive()]); two nodes are
    equal iff the three fields are equal.  No arithmetic is done on depths:
    they are only compared and passed to [std::min]. *)
Record node : Type := Node {
  depth : N;
  negative : ref;
  positive : ref;
}.

Global Instance node_eq_dec : EqDecision node.
Proof. solve_decision. Defined.

(** The memory the routines work on.  [zero_node] and [one_node] are the
    contents of the two sentinel objects (Modelled from the spec: their
    declaration is in the absent [dag.h] and nothing says what their fields
    hold, so they are left arbitrary).  [s_factors] is the static member of
    [global_node_sink]; [None] is [nullptr].  [stores] maps the address of
    each caller-owned [std::set<node>] to its elements in allocation order;
    a set nothing was inserted into is empty. *)
Record state : Type := State {
  zero_node : node;
  one_node : node;
  s_factors : option nat;
  stores : gmap nat (list node);
}.

(** The elements of the store at address [sid]. *)
Definition store_of (st : state) (sid : nat) : list node :=
  default [] (stores st !! sid).

(** The memory with the store at [sid] replaced by [s]. *)
Definition set_store (sid : nat) (s : list node) (st : state) : state :=
  {| zero_node := zero_node st;
     one_node := one_node st;
     s_factors := s_factors st;
     stores := <[sid := s]> (stores st) |}.

(** The memory with [s_factors] set to [p]. *)
Definition set_factors (p : option nat) (st : state) : state :=
  {| zero_node := zero_node st;
     one_node := one_node st;
     s_factors := p;
     stores := stores st |}.

(** Reading the node a reference points to ([a_x->depth()] and the like). *)
Definition node_at (st : state) (r : ref) : option node :=
  match r with
  | ZERO => Some (zero_node st)
  | ONE => Some (one_node st)
  | Ptr sid i => store_of st sid !! i
  end.

(** ** Outcomes and the state monad *)

(** [NoStore]: [s_factors] was [nullptr] when [emplace] reached its store
    access (the fatal protocol violation).  [BadRef]: a reference that points
    to no node was dereferenced.  [OutOfFuel]: the recursion bound of the
    model was reached; the code itself has no such bound. *)
Inductive outcome (A : Type) : Type :=
  | Ok (a : A)
  | NoStore
  | BadRef
  | OutOfFuel.
Global Arguments Ok {A} a.
Global Arguments NoStore {A}.
Global Arguments BadRef {A}.
Global Arguments OutOfFuel {A}.

(** Computations on the memory that may fail. *)
Definition M (A : Type) : Type := state → outcome (A * state).

Definition ret {A} (a : A) : M A := λ st, Ok (a, st).

Definition bindM {A B} (m : M A) (k : A → M B) : M B := λ st,
  match m st with
  | Ok (a, st') => k a st'
  | NoStore => NoStore
  | BadRef => BadRef
  | OutOfFuel => OutOfFuel
  end.

(** Dereferencing inside a computation. *)
Definition deref (r : ref) : M node := λ st,
  match node_at st r with
  | Some n => Ok (n, st)
  | None => BadRef
  end.

Notation "'letM' x ':=' m 'in' k" := (bindM m (λ x, k))
  (at level 10, x pattern, m at level 200, k at level 200,
   format "'[v' 'letM'  x  :=  m  'in' '/' k ']'").

(** ** The canonical node store *)

(** The slot of the element of [s] equal to [n], if there is one
    ([std::set::emplace] finds it instead of inserting). *)
Definition slot_of (n : node) (s : list node) : option nat :=
  fst <$> list_find (λ m, m = n) s.

Module global_node_sink.

(** [emplace(a_depth, a_left_child, a_right_child)]: equal children are
    answered with that child before [s_factors] is touched; otherwise the
    address of the equal element of the bound store is returned, which is
    inserted first when the store has none. *)
Definition emplace (a_depth : N) (a_left_child a_right_child : ref)
  : M ref := λ st,
  if decide (a_left_child = a_right_child) then Ok (a_left_child, st)
  else
    match s_factors st with
    | None => NoStore
    | Some sid =>
        let s := store_of st sid in
        let n := Node a_depth a_left_child a_right_child in
        match slot_of n s with
        | Some i => Ok (Ptr sid i, st)
        | None => Ok (Ptr sid (length s), set_store sid (s ++ [n]) st)
        end
    end.

(** [bind(a_factors)]: a flat swap that returns the previous target. *)
Definition bind (a_factors : option nat) : M (option nat) := λ st,
  Ok (s_factors st, set_factors a_factors st).

End global_node_sink.

Import global_node_sink.

(** [literal(a_variable_index, a_sign)]. *)
Definition literal (a_variable_index : N) (a_sign : bool) : M ref :=
  emplace a_variable_index
    (if negb a_sign then ONE else ZERO)
    (if a_sign then ONE else ZERO).

(** ** Complement *)

(** [invert(a_cache, a_node)].  The cache is passed by reference in the code,
    so the model returns it.  The two recursive calls are arguments of one
    call of [emplace]; the model runs the one on the negative child first. *)
Fixpoint invert_cached (fuel : nat) (a_cache : gmap ref ref) (a_node : ref)
  : M (ref * gmap ref ref) :=
  if decide (a_node = ZERO) then ret (ONE, a_cache)
  else if decide (a_node = ONE) then ret (ZERO, a_cache)
  else
    match a_cache !! a_node with
    | Some v => ret (v, a_cache)
    | None =>
        match fuel with
        | 0 => λ _, OutOfFuel
        | S fuel' =>
            letM n := deref a_node in
            letM (l, c1) := invert_cached fuel' a_cache (negative n) in
            letM (r, c2) := invert_cached fuel' c1 (positive n) in
            letM v := emplace (depth n) l r in
            ret (v, <[a_node := v]> c2)
        end
    end.

(** [invert(a_node)]: a cache of its own for every top-level call. *)
Definition invert (fuel : nat) (a_node : ref) : M ref :=
  letM (v, _) := invert_cached fuel ∅ a_node in
  ret v.

(** ** Generalised apply *)

(** The key [std::set<const node*>{a_x, a_y}] of the join cache. *)
Definition join_key (a_x a_y : ref) : gset ref := {[a_x; a_y]}.

(** The four branch views [l_x_left], [l_x_right], [l_y_left], [l_y_right]
    of [join]: the operand of greater depth is held on both branches, the
    other one (or both, at equal depth) is split into its children. *)
Definition branch_views (a_x a_y : ref) (nx ny : node)
  : ref * ref * ref * ref :=
  if decide (depth ny < depth nx)%N
  then (a_x, a_x, negative ny, positive ny)
  else if decide (depth nx < depth ny)%N
  then (negative nx, positive nx, a_y, a_y)
  else (negative nx, positive nx, negative ny, positive ny).

(** [join(a_cache, a_ident, a_antident, a_x, a_y)].  The four branch views and
    both depths are read before the cache is consulted, as in the code.  As
    for [invert], the recursive call on the negative branches is run
    first. *)
Fixpoint join_cached (fuel : nat) (a_cache : gmap (gset ref) ref)
    (a_ident a_antident a_x a_y : ref) : M (ref * gmap (gset ref) ref) :=
  if decide (a_x = a_ident) then ret (a_y, a_cache)
  else if decide (a_y = a_ident) then ret (a_x, a_cache)
  else if decide (a_x = a_antident ∨ a_y = a_antident)
  then ret (a_antident, a_cache)
  else
    letM nx := deref a_x in
    letM ny := deref a_y in
    let '(l_x_left, l_x_right, l_y_left, l_y_right) :=
      branch_views a_x a_y nx ny in
    let l_key := join_key a_x a_y in
    match a_cache !! l_key with
    | Some v => ret (v, a_cache)
    | None =>
        match fuel with
        | 0 => λ _, OutOfFuel
        | S fuel' =>
            letM (l, c1) :=
              join_cached fuel' a_cache a_ident a_antident l_x_left l_y_left in
            letM (r, c2) :=
              join_cached fuel' c1 a_ident a_antident l_x_right l_y_right in
            letM v := emplace (N.min (depth nx) (depth ny)) l r in
            ret (v, <[l_key := v]> c2)
        end
    end.

(** The variadic [join(a_ident, a_antident, a_x, a_y, a_remaining_operands...)].
    Its recursive call has no cache argument, so it resolves to the variadic
    overload again, which constructs its own [l_cache]. *)
Fixpoint join (fuel : nat) (a_ident a_antident a_x a_y : ref)
    (a_remaining_operands : list ref) : M ref :=
  letM (l_junction, _) :=
    join_cached fuel ∅ a_ident a_antident a_x a_y in
  match a_remaining_operands with
  | [] => ret l_junction
  | z :: rest => join fuel a_ident a_antident l_junction z rest
  end.

(** [disjoin(a_x, a_y, a_remaining_operands...)]. *)
Definition disjoin (fuel : nat) (a_x a_y : ref)
    (a_remaining_operands : list ref) : M ref :=
  join fuel ZERO ONE a_x a_y a_remaining_operands.

(** [conjoin(a_x, a_y, a_remaining_operands...)]. *)
Definition conjoin (fuel : nat) (a_x a_y : ref)
    (a_remaining_operands : list ref) : M ref :=
  join fuel ONE ZERO a_x a_y a_remaining_operands.

(** The variadic [join] once more, reporting next to its result every
    [l_cache] it constructed, in order, with the contents it had when its
    activation finished. *)
Fixpoint join_caches (fuel : nat) (a_ident a_antident a_x a_y : ref)
    (a_remaining_operands : list ref)
  : M (ref * list (gmap (gset ref) ref)) :=
  letM (l_junction, l_cache) :=
    join_cached fuel ∅ a_ident a_antident a_x a_y in
  match a_remaining_operands with
  | [] => ret (l_junction, [l_cache])
  | z :: rest =>
      letM (r, cs) := join_caches fuel a_ident a_antident l_junction z rest in
      ret (r, l_cache :: cs)
  end.

(** ** The construction primitives as one interface *)

(** A call of one of the construction primitives. *)
Inductive call : Type :=
  | Emplace (d : N) (l r : ref)
  | Literal (i : N) (s : bool)
  | Invert (n : ref)
  | Join (ident antident x y : ref) (rest : list ref).

(** Running a call. *)
Definition exec (fuel : nat) (c : call) : M ref :=
  match c with
  | Emplace d l r => emplace d l r
  | Literal i s => literal i s
  | Invert n => invert fuel n
  | Join i a x y rest => join fuel i a x y rest
  end.

(** * Part II: the vocabulary of the specification *)

(** ** Well-formed references and the function a diagram denotes *)

(** [wf_ref h st r]: every path from [r] reaches a sentinel through live
    nodes in at most [h] steps. *)
Fixpoint wf_ref (h : nat) (st : state) (r : ref) : bool :=
  match r with
  | ZERO | ONE => true
  | Ptr _ _ =>
      match h with
      | 0 => false
      | S h' =>
          match node_at st r with
          | Some n => wf_ref h' st (negative n) && wf_ref h' st (positive n)
          | None => false
          end
      end
  end.

(** Reading a diagram under an assignment [env] of the variables: at a node
    of depth [d] follow the positive child when [env d] holds and the
    negative child otherwise; [ZERO] reads false and [ONE] reads true. *)
Inductive eval (st : state) (env : N → bool) : ref → bool → Prop :=
  | eval_ZERO : eval st env ZERO false
  | eval_ONE : eval st env ONE true
  | eval_Ptr sid i n b :
      node_at st (Ptr sid i) = Some n →
      eval st env (if env (depth n) then positive n else negative n) b →
      eval st env (Ptr sid i) b.

(** An executable reading of a diagram, used to name the function a
    well-formed reference denotes. *)
Fixpoint run (h : nat) (st : state) (env : N → bool) (r : ref) : bool :=
  match r with
  | ZERO => false
  | ONE => true
  | Ptr _ _ =>
      match h with
      | 0 => false
      | S h' =>
          match node_at st r with
          | Some n =>
              run h' st env (if env (depth n) then positive n else negative n)
          | None => false
          end
      end
  end.

(** [r] denotes the boolean function [f]. *)
Definition denotes (st : state) (r : ref) (f : (N → bool) → bool) : Prop :=
  ∀ env, eval st env r (f env).

(** [x] and [y] read the same under every assignment. *)
Definition equiv (st : state) (x y : ref) : Prop :=
  ∀ env b, eval st env x b ↔ eval st env y b.

(** The assignment [env] with variable [d] set to [b]. *)
Definition override (env : N → bool) (d : N) (b : bool) : N → bool :=
  λ v, if decide (v = d) then b else env v.

(** The sentinel for a boolean ([padding] of [dag_logic.h]). *)
Definition terminal (b : bool) : ref := if b then ONE else ZERO.

(** The boolean operator whose identity element is [identity]. *)
Definition join_op (identity : bool) : bool → bool → bool :=
  if identity then andb else orb.

(** ** How the memory evolves *)

(** [st'] holds everything [st] holds: same sentinels, same binding, every
    store of [st] a prefix of the store at the same address in [st'], and
    stores other than the bound one untouched. *)
Record grows (st st' : state) : Prop := Grows {
  grows_zero : zero_node st' = zero_node st;
  grows_one : one_node st' = one_node st;
  grows_factors : s_factors st' = s_factors st;
  grows_prefix : ∀ sid, store_of st sid `prefix_of` store_of st' sid;
  grows_frame : ∀ sid, s_factors st ≠ Some sid →
                       stores st' !! sid = stores st !! sid;
}.

(** A property of the memory that [emplace] preserves. *)
Definition emplace_stable (P : state → Prop) : Prop :=
  ∀ d l r st v st', P st → emplace d l r st = Ok (v, st') → P st'.

(** No stored node has equal children. *)
Definition reduced (st : state) : Prop :=
  ∀ sid i n, store_of st sid !! i = Some n → negative n ≠ positive n.

(** The memories that arise from empty stores through [bind] and the
    construction primitives. *)
Inductive reachable : state → Prop :=
  | reach_fresh z o :
      reachable {| zero_node := z; one_node := o;
                   s_factors := None; stores := ∅ |}
  | reach_bind st p : reachable st → reachable (set_factors p st)
  | reach_exec st fuel c r st' :
      reachable st → exec fuel c st = Ok (r, st') → reachable st'.

(** ** Sessions: the shape of a store filled through the primitives *)

(** A child of the node in slot [i] of store [sid] is a sentinel, or lives
    in an earlier slot of the same store and tests a later variable. *)
Definition child_ok (s : list node) (sid i : nat) (d : N) (c : ref) : bool :=
  match c with
  | ZERO | ONE => true
  | Ptr s' j =>
      bool_decide (s' = sid) && bool_decide (j < i) &&
      match s !! j with
      | Some m => bool_decide (d < depth m)%N
      | None => false
      end
  end.

(** The node in slot [i] is reduced and ordered. *)
Definition node_ok (s : list node) (sid i : nat) (n : node) : bool :=
  bool_decide (negative n ≠ positive n) &&
  child_ok s sid i (depth n) (negative n) &&
  child_ok s sid i (depth n) (positive n).

(** The store holds no node twice (it is a set), no node with equal
    children, and only ordered nodes. *)
Definition store_ok (sid : nat) (s : list node) : bool :=
  bool_decide (NoDup s) &&
  forallb (λ i, from_option (node_ok s sid i) true (s !! i))
          (seq 0 (length s)).

(** A session: store [sid] is bound, holds no node twice and no node with
    equal children, and every child of a stored node is a sentinel or a node
    in an earlier slot of the same store that tests a later variable (the
    store is closed and ordered).  Binding an empty store opens a session
    and the primitives keep it when they are given members of the session,
    [emplace] with a depth before those of its children; a node with a child
    in another store, or an [emplace] above a child of no greater depth,
    ends it. *)
Definition session (st : state) (sid : nat) : Prop :=
  s_factors st = Some sid ∧ store_ok sid (store_of st sid) = true.

(** [r] is a sentinel or points into store [sid]. *)
Definition member (st : state) (sid : nat) (r : ref) : bool :=
  match r with
  | ZERO | ONE => true
  | Ptr s' j =>
      bool_decide (s' = sid) && bool_decide (j < length (store_of st sid))
  end.

(** [r] is a sentinel or tests a variable after [d]. *)
Definition above (st : state) (d : N) (r : ref) : Prop :=
  match r with
  | ZERO | ONE => True
  | Ptr _ _ => ∃ n, node_at st r = Some n ∧ (d < depth n)%N
  end.

(** Sentinels have rank 0, the node in slot [j] rank [S j]: an upper bound
    on the height of a member of a session. *)
Definition rank (r : ref) : nat :=
  match r with
  | ZERO | ONE => 0
  | Ptr _ j => S j
  end.

(** Arguments a caller may pass within session [sid]. *)
Definition call_ok (st : state) (sid : nat) (c : call) : Prop :=
  match c with
  | Emplace d l r =>
      member st sid l = true ∧ member st sid r = true ∧
      above st d l ∧ above st d r
  | Literal _ _ => True
  | Invert n => member st sid n = true
  | Join i a x y rest =>
      (∃ b, i = terminal b ∧ a = terminal (negb b)) ∧
      member st sid x = true ∧ member st sid y = true ∧
      Forall (λ z, member st sid z = true) rest
  end.

(** ** What the caches hold *)

(** Every entry of an [invert] cache maps a reference to a well-formed
    reference denoting its complement. *)
Definition inv_cache_ok (st : state) (c : gmap ref ref) : Prop :=
  ∀ a v, c !! a = Some v →
    (∃ h, wf_ref h st v = true) ∧
    ∃ f, denotes st a f ∧ denotes st v (λ env, negb (f env)).

(** Every entry of a [join] cache maps a pair of operands to a well-formed
    reference denoting their combination. *)
Definition join_cache_ok (st : state) (i : bool) (c : gmap (gset ref) ref)
  : Prop :=
  ∀ a b v, c !! join_key a b = Some v →
    (∃ h, wf_ref h st v = true) ∧
    ∃ f g, denotes st a f ∧ denotes st b g ∧
           denotes st v (λ env, join_op i (f env) (g env)).

(** Within a session the entries of an [invert] cache are members, and a
    value tests no variable before its key does. *)
Definition inv_cache_mem (st : state) (sid : nat) (c : gmap ref ref) : Prop :=
  ∀ a v, c !! a = Some v →
    member st sid a = true ∧ member st sid v = true ∧
    ∀ d, above st d a → above st d v.

(** The same for a [join] cache. *)
Definition join_cache_mem (st : state) (sid : nat) (c : gmap (gset ref) ref)
  : Prop :=
  ∀ a b v, c !! join_key a b = Some v →
    member st sid a = true ∧ member st sid b = true ∧
    member st sid v = true ∧
    ∀ d, above st d a → above st d b → above st d v.

(** ** The variadic join as the specification words it *)

(** One cache, handed from each pairwise step to the next. *)
Fixpoint join_shared_from (fuel : nat) (cache : gmap (gset ref) ref)
    (ident antident x y : ref) (rest : list ref)
  : M (ref * gmap (gset ref) ref) :=
  letM (junction, cache') := join_cached fuel cache ident antident x y in
  match rest with
  | [] => ret (junction, cache')
  | z :: rest' => join_shared_from fuel cache' ident antident junction z rest'
  end.

(** The cache is constructed once, empty, for the whole top-level call. *)
Definition join_shared (fuel : nat) (ident antident x y : ref)
    (rest : list ref) : M (ref * gmap (gset ref) ref) :=
  join_shared_from fuel ∅ ident antident x y rest.

(** One pairwise step on a cache of its own. *)
Definition join_pair (fuel : nat) (ident antident x y : ref) : M ref :=
  letM (junction, _) := join_cached fuel ∅ ident antident x y in
  ret junction.

(** Left fold of [join_pair] over the operands. *)
Fixpoint join_fold (fuel : nat) (ident antident acc : ref)
    (operands : list ref) : M ref :=
  match operands with
  | [] => ret acc
  | z :: rest =>
      letM junction := join_pair fuel ident antident acc z in
      join_fold fuel ident antident junction rest
  end.

(** ** Concrete memories used to exercise the statements *)

(** Nothing bound, no store written; the sentinel objects are given some
    contents. *)
Definition fresh : state :=
  {| zero_node := Node 0 ZERO ZERO; one_node := Node 0 ONE ONE;
     s_factors := None; stores := ∅ |}.

(** Store 1 bound, holding the literals [literal(0, true)] and
    [literal(1, false)]. *)
Definition demo : state :=
  {| zero_node := Node 0 ZERO ZERO; one_node := Node 0 ONE ONE;
     s_factors := Some 1;
     stores := {[ 1 := [Node 0 ZERO ONE; Node 1 ONE ZERO] ]} |}.

(** Store 1 holds [literal(0, true)], built while it was bound; store 2 is
    bound now and empty. *)
Definition two_stores : state :=
  {| zero_node := Node 0 ZERO ZERO; one_node := Node 0 ONE ONE;
     s_factors := Some 2;
     stores := {[ 1 := [Node 0 ZERO ONE] ]} |}.

(** * Part I, continued: the rest of the code *)

(** ** The cache macro *)

(** [CACHE(cache, key, value)], that is
    [cache.contains(key) ? cache[key] : cache[key] = value].  [value] is an
    expression, evaluated only when the key is absent; it may itself work on
    the cache (in [invert] and [join] it holds the recursive calls), so it is
    modelled as a computation from the cache to a value and the cache it
    leaves.  The right operand of the assignment is evaluated before
    [cache[key]]. *)
Definition CACHE {K V : Type} `{Countable K} (cache : gmap K V) (key : K)
    (value : gmap K V → M (V * gmap K V)) : M (V * gmap K V) :=
  match cache !! key with
  | Some v => ret (v, cache)
  | None =>
      letM (v, c) := value cache in
      ret (v, <[key := v]> c)
  end.

(** ** Utility functions *)

Module utility.

(** [filter(a_vals, a_query)]: [std::copy_if] over the set into an empty
    result set. *)
Definition filter {T : Type} `{Countable T}
    (a_vals : gset T) (a_query : T → bool) : gset T :=
  foldl (λ l_result x, if a_query x then {[x]} ∪ l_result else l_result)
        ∅ (elements a_vals).

(** [cover(a_values, a_grouper)]: every value is inserted into the group of
    each key its grouper yields; [l_result[l_key]] creates an empty group
    when the key is new. *)
Definition cover {VALUE KEY : Type} `{Countable VALUE} `{Countable KEY}
    (a_values : gset VALUE) (a_grouper : VALUE → gset KEY)
  : gmap KEY (gset VALUE) :=
  foldl (λ l_result l_value,
           foldl (λ res l_key,
                    <[l_key := {[l_value]} ∪ default ∅ (res !! l_key)]> res)
                 l_result (elements (a_grouper l_value)))
        ∅ (elements a_values).

(** [partition(a_values, a_partitioner)]: the cover whose grouper yields the
    one key [a_partitioner(a_value)]. *)
Definition partition {VALUE KEY : Type} `{Countable VALUE} `{Countable KEY}
    (a_values : gset VALUE) (a_partitioner : VALUE → KEY)
  : gmap KEY (gset VALUE) :=
  cover a_values (λ a_value, {[a_partitioner a_value]}).

End utility.

(** ** The specialisations of [dag_logic.h] *)

(** [dag::join] and [dag::invert] of [dag_logic.h] are, statement for
    statement, the cached [join] and [invert] of [karnaugh.h]; they are
    modelled by [join_cached] and [invert_cached]. *)
Module dag_logic.

(** [logic::padding(a_logic_state)]. *)
Definition padding (a_logic_state : bool) : ref :=
  if a_logic_state then ONE else ZERO.

(** [logic::join(a_identity, a_x, a_y)]. *)
Definition join (fuel : nat) (a_identity : bool) (a_x a_y : ref) : M ref :=
  letM (v, _) :=
    join_cached fuel ∅
      (if a_identity then ONE else ZERO)
      (if a_identity then ZERO else ONE) a_x a_y in
  ret v.

(** [logic::invert(a_node)]. *)
Definition invert (fuel : nat) (a_node : ref) : M ref :=
  letM (v, _) := invert_cached fuel ∅ a_node in
  ret v.

End dag_logic.

(** * Part II, continued: further vocabulary *)

(** The computation [m], which takes fuel, returns [a] and leaves [st'] for
    every sufficiently large amount of fuel: the code, which has no fuel,
    returns [a]. *)
Definition returns {A : Type} (m : nat → M A) (st : state) (a : A)
    (st' : state) : Prop :=
  ∃ fuel0, ∀ fuel, fuel0 ≤ fuel → m fuel st = Ok (a, st').

(** Boolean expressions over references a caller holds and over literals,
    and the calls that build their diagrams, operands from left to right. *)
Inductive expr : Type :=
  | Leaf (r : ref)
  | Lit (i : N) (s : bool)
  | Not (e : expr)
  | And (e1 e2 : expr)
  | Or (e1 e2 : expr).

Fixpoint build (fuel : nat) (e : expr) : M ref :=
  match e with
  | Leaf r => ret r
  | Lit i s => literal i s
  | Not e1 => letM r := build fuel e1 in invert fuel r
  | And e1 e2 =>
      letM a := build fuel e1 in
      letM b := build fuel e2 in
      conjoin fuel a b []
  | Or e1 e2 =>
      letM a := build fuel e1 in
      letM b := build fuel e2 in
      disjoin fuel a b []
  end.

(** What an expression reads under an assignment; a leaf reads as its
    diagram does in [st]. *)
Inductive reads (st : state) (env : N → bool) : expr → bool → Prop :=
  | reads_Leaf r b : eval st env r b → reads st env (Leaf r) b
  | reads_Lit i s : reads st env (Lit i s) (if s then env i else negb (env i))
  | reads_Not e b : reads st env e b → reads st env (Not e) (negb b)
  | reads_And e1 e2 b1 b2 :
      reads st env e1 b1 → reads st env e2 b2 →
      reads st env (And e1 e2) (b1 && b2)
  | reads_Or e1 e2 b1 b2 :
      reads st env e1 b1 → reads st env e2 b2 →
      reads st env (Or e1 e2) (b1 || b2).

(** The leaves of an expression are members of session [sid]. *)
Fixpoint leaves_in (st : state) (sid : nat) (e : expr) : bool :=
  match e with
  | Leaf r => member st sid r
  | Lit _ _ => true
  | Not e1 => leaves_in st sid e1
  | And e1 e2 | Or e1 e2 => leaves_in st sid e1 && leaves_in st sid e2
  end.

(** ** What a call is given and what its result must read *)



(** * Part III: proofs *)

(** ** Running the monad *)

Lemma bindM_Ok {A B} (m : M A) (k : A → M B) st r :
  bindM m k st = Ok r ↔ ∃ a st1, m st = Ok (a, st1) ∧ k a st1 = Ok r.
Proof.
  unfold bindM. split.
  - destruct (m st) as [[a st1]| | |]; try discriminate. eauto.
  - intros (a & st1 & -> & ?). done.
Qed.

Lemma ret_Ok {A} (a : A) st r : ret a st = Ok r ↔ r = (a, st).
Proof. unfold ret. split; [by intros [= <-] | by intros ->]. Qed.

Lemma deref_Ok r st n st' :
  deref r st = Ok (n, st') ↔ node_at st r = Some n ∧ st' = st.
Proof.
  unfold deref. destruct (node_at st r) as [m|]; split.
  - by intros [= -> ->].
  - by intros [[= ->] ->].
  - by intros [=].
  - by intros [[=] _].
Qed.

(** Peel the monadic structure off a successful run. *)
Ltac inv_run :=
  repeat match goal with
  | H : bindM _ _ _ = Ok _ |- _ =>
      apply bindM_Ok in H; destruct H as (? & ? & ? & H); cbv beta in H
  | H : ret _ _ = Ok _ |- _ => apply ret_Ok in H; simplify_eq
  | H : deref _ _ = Ok (_, _) |- _ =>
      apply deref_Ok in H; destruct H as [H ?]; subst
  | H : (let '(_, _) := ?p in _) _ = Ok _ |- _ => destruct p as [? ?]
  end.

(** ** Growth of the memory, [emplace] *)

Global Instance grows_refl : Reflexive grows.
Proof. intros st. by split. Qed.

Global Instance grows_trans : Transitive grows.
Proof.
  intros st1 st2 st3 [Hz1 Ho1 Hf1 Hp1 Hr1] [Hz2 Ho2 Hf2 Hp2 Hr2].
  split; try congruence.
  - intros sid. trans (store_of st2 sid); [apply Hp1 | apply Hp2].
  - intros sid Hs. rewrite Hr2; [by apply Hr1 | congruence].
Qed.

Lemma store_of_set_store sid s st sid' :
  store_of (set_store sid s st) sid' =
  if decide (sid = sid') then s else store_of st sid'.
Proof.
  unfold store_of, set_store; simpl. rewrite lookup_insert.
  by case_decide.
Qed.

Lemma grows_node_at st st' r n :
  grows st st' → node_at st r = Some n → node_at st' r = Some n.
Proof.
  intros [] Hn. destruct r as [| |sid i]; simpl in *; try congruence.
  by eapply prefix_lookup_Some.
Qed.

Lemma slot_of_Some n s i : slot_of n s = Some i → s !! i = Some n.
Proof.
  unfold slot_of. intros H.
  destruct (list_find _ s) as [[j m]|] eqn:Hf; simplify_eq/=.
  apply list_find_Some in Hf as (? & -> & _). done.
Qed.

Lemma slot_of_None n s : slot_of n s = None → n ∉ s.
Proof.
  unfold slot_of. intros H.
  destruct (list_find _ s) as [[j m]|] eqn:Hf; simplify_eq/=.
  apply list_find_None in Hf. intros Hin.
  rewrite Forall_forall in Hf. by apply (Hf n).
Qed.

Lemma slot_of_prefix n s s' i :
  s `prefix_of` s' → slot_of n s = Some i → slot_of n s' = Some i.
Proof.
  intros [k ->]. unfold slot_of. intros H.
  destruct (list_find _ s) as [[j m]|] eqn:Hf; simplify_eq/=.
  by erewrite list_find_app_l.
Qed.

Lemma grows_append st sid n :
  s_factors st = Some sid →
  grows st (set_store sid (store_of st sid ++ [n]) st).
Proof.
  intros Hb. split; try done.
  - intros sid'. rewrite store_of_set_store. case_decide; subst.
    + by apply prefix_app_r.
    + done.
  - intros sid' Hne. simpl. rewrite lookup_insert_ne; [done | congruence].
Qed.

(** What a successful [emplace] did. *)
Lemma emplace_Ok d l r st v st' :
  emplace d l r st = Ok (v, st') →
  (l = r ∧ v = l ∧ st' = st) ∨
  (l ≠ r ∧ ∃ sid i,
     s_factors st = Some sid ∧ v = Ptr sid i ∧
     store_of st' sid !! i = Some (Node d l r) ∧
     (st' = st ∨
      (i = length (store_of st sid) ∧ (Node d l r ∉ store_of st sid) ∧
       st' = set_store sid (store_of st sid ++ [Node d l r]) st))).
Proof.
  unfold emplace. case_decide as Hlr.
  - intros [= -> ->]. by left.
  - destruct (s_factors st) as [sid|] eqn:Hb; [|done].
    destruct (slot_of _ _) as [i|] eqn:Hs; intros [= <- <-]; right;
      (split; [done|]); exists sid; eexists; repeat split.
    + by apply slot_of_Some.
    + by left.
    + rewrite store_of_set_store. rewrite decide_True; [|done].
      rewrite lookup_app_r; [|done]. by rewrite Nat.sub_diag.
    + right. repeat split. by apply slot_of_None.
Qed.

Lemma emplace_grows d l r st v st' :
  emplace d l r st = Ok (v, st') → grows st st'.
Proof.
  intros H. apply emplace_Ok in H as [(_ & _ & ->)|(_ & sid & i & Hb & _ & _ & H)].
  - done.
  - destruct H as [->|(_ & _ & ->)]; [done | by apply grows_append].
Qed.

(** With a store bound, [emplace] always succeeds. *)
Lemma emplace_total d l r st sid :
  s_factors st = Some sid → ∃ v st', emplace d l r st = Ok (v, st').
Proof.
  intros Hb. unfold emplace. rewrite Hb.
  case_decide; [eauto|]. destruct (slot_of _ _); eauto.
Qed.

(** ** Well-formedness and reading *)

Lemma wf_ref_mono h h' st r :
  h ≤ h' → wf_ref h st r = true → wf_ref h' st r = true.
Proof.
  revert h' r. induction h as [|h IH]; intros h' r Hle Hw.
  - destruct r; [by destruct h'..|done].
  - destruct h' as [|h']; [lia|]. destruct r as [| |sid i]; try done.
    simpl in *. destruct (store_of st sid !! i) as [n|]; [|done].
    apply andb_true_iff in Hw as [H1 H2].
    rewrite (IH h'), (IH h'); auto with lia.
Qed.

Lemma wf_ref_grows h st st' r :
  grows st st' → wf_ref h st r = true → wf_ref h st' r = true.
Proof.
  intros Hg. revert r. induction h as [|h IH]; intros r Hw.
  - by destruct r.
  - destruct r as [| |sid i]; try done.
    cbn [wf_ref] in *. destruct (node_at st (Ptr sid i)) as [n|] eqn:Hn; [|done].
    rewrite (grows_node_at _ _ _ _ Hg Hn).
    apply andb_true_iff in Hw as [H1 H2]. by rewrite !IH.
Qed.

Lemma wf_ref_Ptr h st sid i :
  wf_ref h st (Ptr sid i) = true →
  ∃ h' n, h = S h' ∧ node_at st (Ptr sid i) = Some n ∧
          wf_ref h' st (negative n) = true ∧ wf_ref h' st (positive n) = true.
Proof.
  destruct h as [|h]; [done|]. cbn [wf_ref].
  destruct (node_at st (Ptr sid i)) as [n|]; [|done].
  intros [??]%andb_true_iff. eauto 10.
Qed.

Lemma eval_grows st st' env r b :
  grows st st' → eval st env r b → eval st' env r b.
Proof.
  intros Hg. induction 1; econstructor; eauto using grows_node_at.
Qed.

Lemma eval_Ptr_inv st env sid i n b :
  node_at st (Ptr sid i) = Some n →
  eval st env (Ptr sid i) b →
  eval st env (if env (depth n) then positive n else negative n) b.
Proof.
  intros Hn. inversion 1 as [| |? ? n' ? Hn' He]; subst.
  cbn in Hn, Hn'. by simplify_eq.
Qed.

Lemma eval_det st env r b1 b2 :
  eval st env r b1 → eval st env r b2 → b1 = b2.
Proof.
  intros H1. revert b2.
  induction H1 as [| |sid i n b Hn He IH]; intros b2 H2.
  - by inversion H2.
  - by inversion H2.
  - apply IH. by eapply eval_Ptr_inv.
Qed.

Lemma wf_ref_eval h st env r :
  wf_ref h st r = true → ∃ b, eval st env r b.
Proof.
  revert r. induction h as [|h IH]; intros r Hw.
  - destruct r; [eexists; constructor..|done].
  - destruct r as [| |sid i]; [eexists; constructor..|].
    apply wf_ref_Ptr in Hw as (h' & n & [= <-] & Hn & H1 & H2).
    destruct (IH (if env (depth n) then positive n else negative n)) as [b Hb].
    { by destruct (env (depth n)). }
    exists b. by econstructor.
Qed.

Lemma eval_terminal st env b b' :
  eval st env (terminal b) b' ↔ b' = b.
Proof.
  destruct b; simpl; split; try (inversion 1; done); intros ->; constructor.
Qed.

Lemma wf_ref_run h st env r :
  wf_ref h st r = true → eval st env r (run h st env r).
Proof.
  revert r. induction h as [|h IH]; intros r Hw.
  - destruct r; [constructor..|done].
  - destruct r as [| |sid i]; [constructor..|].
    apply wf_ref_Ptr in Hw as (h' & n & [= <-] & Hn & H1 & H2).
    econstructor; [done|]. cbn [run]. rewrite Hn.
    apply IH. by destruct (env (depth n)).
Qed.

Lemma wf_ref_denotes h st r :
  wf_ref h st r = true → denotes st r (λ env, run h st env r).
Proof. intros Hw env. by apply wf_ref_run. Qed.

Lemma denotes_grows st st' r f :
  grows st st' → denotes st r f → denotes st' r f.
Proof. intros Hg Hd env. eapply eval_grows; eauto. Qed.

Lemma denotes_ext st r f g :
  denotes st r f → denotes st r g → ∀ env, f env = g env.
Proof. intros Hf Hg env. eapply eval_det; eauto. Qed.

Lemma denotes_Ptr_inv st sid i n f env :
  node_at st (Ptr sid i) = Some n →
  denotes st (Ptr sid i) f →
  eval st env (if env (depth n) then positive n else negative n) (f env).
Proof. intros Hn Hd. by eapply eval_Ptr_inv. Qed.

(** The node [emplace] returns reads as a test of variable [d]. *)
Lemma emplace_eval d l r st v st' env b :
  emplace d l r st = Ok (v, st') →
  eval st env (if env d then r else l) b →
  eval st' env v b.
Proof.
  intros He Hb. pose proof (emplace_grows _ _ _ _ _ _ He) as Hg.
  apply emplace_Ok in He as [(-> & -> & ->)|(_ & sid & i & _ & -> & Hn & _)].
  - by destruct (env d).
  - econstructor; [exact Hn|]. simpl. eapply eval_grows; eauto.
Qed.

Lemma emplace_wf d l r st v st' hl hr :
  emplace d l r st = Ok (v, st') →
  wf_ref hl st l = true → wf_ref hr st r = true →
  wf_ref (S (hl `max` hr)) st' v = true.
Proof.
  intros He Hl Hr. pose proof (emplace_grows _ _ _ _ _ _ He) as Hg.
  apply emplace_Ok in He as [(-> & -> & ->)|(_ & sid & i & _ & -> & Hn & _)].
  - eapply wf_ref_mono; [|exact Hl]. lia.
  - cbn [wf_ref node_at]. rewrite Hn. simpl.
    apply andb_true_iff. split.
    + eapply wf_ref_grows; [done|]. eapply wf_ref_mono; [|exact Hl]. lia.
    + eapply wf_ref_grows; [done|]. eapply wf_ref_mono; [|exact Hr]. lia.
Qed.

(** ** Correctness of [invert] *)

Lemma invert_cached_unfold fuel c x :
  invert_cached fuel c x =
  if decide (x = ZERO) then ret (ONE, c)
  else if decide (x = ONE) then ret (ZERO, c)
  else
    match c !! x with
    | Some v => ret (v, c)
    | None =>
        match fuel with
        | 0 => λ _, OutOfFuel
        | S fuel' =>
            letM n := deref x in
            letM (l, c1) := invert_cached fuel' c (negative n) in
            letM (r, c2) := invert_cached fuel' c1 (positive n) in
            letM v := emplace (depth n) l r in
            ret (v, <[x := v]> c2)
        end
    end.
Proof. by destruct fuel. Qed.

Lemma inv_cache_ok_grows st st' c :
  grows st st' → inv_cache_ok st c → inv_cache_ok st' c.
Proof.
  intros Hg Hc a v Hav. destruct (Hc a v Hav) as [[h Hw] (f & Hf & Hv)].
  split; [exists h; by eapply wf_ref_grows|].
  exists f. split; by eapply denotes_grows.
Qed.

Lemma eval_complement_terminal st env b b' :
  eval st env (terminal b) b' → eval st env (terminal (negb b)) (negb b').
Proof. intros ->%eval_terminal. by apply eval_terminal. Qed.

Lemma invert_cached_correct fuel :
  ∀ c x st sid h,
    s_factors st = Some sid →
    wf_ref h st x = true → h ≤ fuel →
    inv_cache_ok st c →
    ∃ v c' st',
      invert_cached fuel c x st = Ok ((v, c'), st') ∧
      grows st st' ∧
      (∃ h', wf_ref h' st' v = true) ∧
      inv_cache_ok st' c' ∧
      ∀ env b, eval st env x b → eval st' env v (negb b).
Proof.
  assert (∀ fuel c st b, inv_cache_ok st c →
    ∃ v c' st',
      invert_cached fuel c (terminal b) st = Ok ((v, c'), st') ∧
      grows st st' ∧
      (∃ h', wf_ref h' st' v = true) ∧
      inv_cache_ok st' c' ∧
      ∀ env b', eval st env (terminal b) b' → eval st' env v (negb b'))
    as Hterm.
  { intros fu c st b Hc. exists (terminal (negb b)), c, st. split_and!.
    - by destruct fu, b.
    - done.
    - exists 0. by destruct b.
    - done.
    - intros env b'. apply eval_complement_terminal. }
  induction fuel as [|fuel IH]; intros c x st sid h Hb Hw Hle Hc.
  { destruct x as [| |s i].
    - by apply (Hterm 0 c st false).
    - by apply (Hterm 0 c st true).
    - destruct h; [done|lia]. }
  destruct x as [| |s i].
  { by apply (Hterm (S fuel) c st false). }
  { by apply (Hterm (S fuel) c st true). }
  cbn [invert_cached]. rewrite !decide_False by done.
  destruct (c !! Ptr s i) as [v|] eqn:Hcv.
  { exists v, c, st. destruct (Hc _ _ Hcv) as [Hwv (g & Hg & Hv)].
    split_and!; [done..|].
    intros env b Hx. rewrite (eval_det _ _ _ _ _ Hx (Hg env)). apply Hv. }
  pose proof Hw as Hwx.
  apply wf_ref_Ptr in Hw as (h' & n & -> & Hn & Hw1 & Hw2).
  destruct (IH c (negative n) st sid h' Hb Hw1 ltac:(lia) Hc)
    as (l & c1 & st1 & Hrun1 & Hg1 & [hl Hwl] & Hc1 & Hsem1).
  destruct (IH c1 (positive n) st1 sid h') as
    (r & c2 & st2 & Hrun2 & Hg2 & [hr Hwr] & Hc2 & Hsem2);
    [by rewrite (grows_factors _ _ Hg1)|by eapply wf_ref_grows|lia|done|].
  destruct (emplace_total (depth n) l r st2 sid) as (v & st3 & He).
  { by rewrite (grows_factors _ _ Hg2), (grows_factors _ _ Hg1). }
  pose proof (emplace_grows _ _ _ _ _ _ He) as Hg3.
  assert (grows st st3) as Hg by (etrans; [|done]; by etrans).
  assert (∀ env b, eval st env (Ptr s i) b → eval st3 env v (negb b)) as Hsem.
  { intros env b Hx. eapply emplace_eval; [done|].
    pose proof (eval_Ptr_inv _ _ _ _ _ _ Hn Hx) as Hbr.
    destruct (env (depth n)).
    - apply Hsem2. by eapply eval_grows.
    - eapply eval_grows; [done|]. by apply Hsem1. }
  assert (wf_ref (S (hl `max` hr)) st3 v = true) as Hwv.
  { eapply emplace_wf; [done| |done]. by eapply wf_ref_grows. }
  exists v, (<[Ptr s i := v]> c2), st3. split_and!.
  - unfold bindM, deref. rewrite Hn, Hrun1, Hrun2, He. done.
  - done.
  - eauto.
  - intros a w. rewrite lookup_insert. case_decide as Ha.
    + intros [= <-]. subst a. split; [eauto|].
      exists (λ env, run (S h') st env (Ptr s i)). split.
      * eapply denotes_grows; [done|]. by apply wf_ref_denotes.
      * intros env. apply Hsem. by apply wf_ref_run.
    + by apply (inv_cache_ok_grows st2 st3).
  - done.
Qed.

(** ** Correctness of [join] *)

Lemma join_key_comm a b : join_key a b = join_key b a.
Proof. unfold join_key. set_solver. Qed.

Lemma join_key_inj a b x y :
  join_key a b = join_key x y → (a = x ∧ b = y) ∨ (a = y ∧ b = x).
Proof.
  unfold join_key. intros H.
  assert (a ∈ ({[x; y]} : gset ref)) as Ha by (rewrite <- H; set_solver).
  assert (b ∈ ({[x; y]} : gset ref)) as Hb by (rewrite <- H; set_solver).
  assert (x ∈ ({[a; b]} : gset ref)) as Hx by (rewrite H; set_solver).
  assert (y ∈ ({[a; b]} : gset ref)) as Hy by (rewrite H; set_solver).
  set_solver.
Qed.

Lemma join_op_comm i a b : join_op i a b = join_op i b a.
Proof. by destruct i, a, b. Qed.

Lemma join_cached_unfold fuel c i a x y :
  join_cached fuel c i a x y =
  if decide (x = i) then ret (y, c)
  else if decide (y = i) then ret (x, c)
  else if decide (x = a ∨ y = a) then ret (a, c)
  else
    letM nx := deref x in
    letM ny := deref y in
    let '(xl, xr, yl, yr) := branch_views x y nx ny in
    match c !! join_key x y with
    | Some v => ret (v, c)
    | None =>
        match fuel with
        | 0 => λ _, OutOfFuel
        | S fuel' =>
            letM (l, c1) := join_cached fuel' c i a xl yl in
            letM (r, c2) := join_cached fuel' c1 i a xr yr in
            letM v := emplace (N.min (depth nx) (depth ny)) l r in
            ret (v, <[join_key x y := v]> c2)
        end
    end.
Proof. by destruct fuel. Qed.

Lemma join_cache_ok_grows st st' i c :
  grows st st' → join_cache_ok st i c → join_cache_ok st' i c.
Proof.
  intros Hg Hc a b v Hv. destruct (Hc a b v Hv) as [[h Hw] (f & g & ? & ? & ?)].
  split; [exists h; by eapply wf_ref_grows|].
  exists f, g. split_and!; by eapply denotes_grows.
Qed.

Lemma join_cache_ok_empty st i : join_cache_ok st i ∅.
Proof. intros a b v. by rewrite lookup_empty. Qed.

Lemma not_terminal_Ptr (x : ref) i :
  x ≠ terminal i → x ≠ terminal (negb i) → ∃ s k, x = Ptr s k.
Proof. destruct x, i; simpl; intros; try done; eauto. Qed.

(** How the branch views relate to the operands: their heights add up to
    less, and under each assignment they read as the operands do. *)
Lemma branch_views_wf st x y nx ny hx hy xl xr yl yr :
  node_at st x = Some nx → node_at st y = Some ny →
  wf_ref hx st (negative nx) = true → wf_ref hx st (positive nx) = true →
  wf_ref hy st (negative ny) = true → wf_ref hy st (positive ny) = true →
  wf_ref (S hx) st x = true → wf_ref (S hy) st y = true →
  branch_views x y nx ny = (xl, xr, yl, yr) →
  ∃ a b, a + b ≤ S (hx + hy) ∧
    wf_ref a st xl = true ∧ wf_ref a st xr = true ∧
    wf_ref b st yl = true ∧ wf_ref b st yr = true.
Proof.
  intros Hnx Hny ?????? Hv. unfold branch_views in Hv.
  repeat case_decide; simplify_eq.
  - exists (S hx), hy. split_and!; [lia|done..].
  - exists hx, (S hy). split_and!; [lia|done..].
  - exists hx, hy. split_and!; [lia|done..].
Qed.

Lemma branch_views_eval st env sx kx sy ky nx ny xl xr yl yr bx by' :
  node_at st (Ptr sx kx) = Some nx → node_at st (Ptr sy ky) = Some ny →
  branch_views (Ptr sx kx) (Ptr sy ky) nx ny = (xl, xr, yl, yr) →
  eval st env (Ptr sx kx) bx → eval st env (Ptr sy ky) by' →
  let m := N.min (depth nx) (depth ny) in
  eval st env (if env m then xr else xl) bx ∧
  eval st env (if env m then yr else yl) by'.
Proof.
  intros Hnx Hny Hv Hx Hy m.
  pose proof (eval_Ptr_inv _ _ _ _ _ _ Hnx Hx) as Hx'.
  pose proof (eval_Ptr_inv _ _ _ _ _ _ Hny Hy) as Hy'.
  unfold branch_views in Hv. subst m.
  repeat case_decide; simplify_eq.
  - rewrite N.min_r by lia. split; [by destruct (env (depth ny))|done].
  - rewrite N.min_l by lia. split; [done|by destruct (env (depth nx))].
  - assert (depth nx = depth ny) as Heq by lia.
    rewrite N.min_l by lia. split; [done|by rewrite Heq].
Qed.

Lemma join_cached_correct fuel :
  ∀ i c x y st sid hx hy,
    s_factors st = Some sid →
    wf_ref hx st x = true → wf_ref hy st y = true → hx + hy ≤ S fuel →
    join_cache_ok st i c →
    ∃ v c' st',
      join_cached fuel c (terminal i) (terminal (negb i)) x y st
        = Ok ((v, c'), st') ∧
      grows st st' ∧
      (∃ h', wf_ref h' st' v = true) ∧
      join_cache_ok st' i c' ∧
      ∀ env bx by', eval st env x bx → eval st env y by' →
                    eval st' env v (join_op i bx by').
Proof.
  induction fuel as [|fuel IH]; intros i c x y st sid hx hy Hb Hwx Hwy Hle Hc.
  all: rewrite join_cached_unfold.
  all: destruct (decide (x = terminal i)) as [->|Hxi].
  1,3: (exists y, c, st; split_and!; [done|done|eauto|done|];
        intros env bx by' ->%eval_terminal Hy; by destruct i).
  all: destruct (decide (y = terminal i)) as [->|Hyi].
  1,3: (exists x, c, st; split_and!; [done|done|eauto|done|];
        intros env bx by' Hx ->%eval_terminal; by destruct i, bx).
  all: destruct (decide (x = terminal (negb i) ∨ y = terminal (negb i)))
         as [Ha|Ha].
  1,3: (exists (terminal (negb i)), c, st; split_and!;
          [done|done|exists 0; by destruct i|done|];
        intros env bx by' Hx Hy; apply eval_terminal;
        destruct Ha as [->| ->];
          [apply eval_terminal in Hx as ->|apply eval_terminal in Hy as ->];
        destruct i; simpl; by rewrite ?andb_false_r, ?orb_true_r).
  all: assert (x ≠ terminal (negb i) ∧ y ≠ terminal (negb i)) as [Hxa Hya]
         by (split; intros ?; apply Ha; auto).
  all: destruct (not_terminal_Ptr x i Hxi Hxa) as (sx & kx & ->).
  all: destruct (not_terminal_Ptr y i Hyi Hya) as (sy & ky & ->).
  all: apply wf_ref_Ptr in Hwx as Hx'; destruct Hx' as (hx' & nx & -> & Hnx & Hx1 & Hx2).
  all: apply wf_ref_Ptr in Hwy as Hy'; destruct Hy' as (hy' & ny & -> & Hny & Hy1 & Hy2).
  1: lia.
  unfold bindM at 1, deref. rewrite Hnx. unfold bindM at 1. rewrite Hny.
  destruct (branch_views _ _ nx ny) as [[[xl xr] yl] yr] eqn:Hv.
  destruct (c !! join_key (Ptr sx kx) (Ptr sy ky)) as [v|] eqn:Hcv.
  { exists v, c, st.
    destruct (Hc (Ptr sx kx) (Ptr sy ky) v Hcv)
      as [Hwv (f & g & Hf & Hg & Hfg)].
    split_and!; [done..|].
    intros env bx by' Hx Hy.
    assert (bx = f env) as -> by (eapply eval_det; [exact Hx|apply Hf]).
    assert (by' = g env) as -> by (eapply eval_det; [exact Hy|apply Hg]).
    apply Hfg. }
  destruct (branch_views_wf st (Ptr sx kx) (Ptr sy ky)
              nx ny hx' hy' xl xr yl yr)
    as (a & b & Hab & Hwxl & Hwxr & Hwyl & Hwyr); try done.
  destruct (IH i c xl yl st sid a b) as
    (l & c1 & st1 & Hrun1 & Hg1 & [hl Hwl] & Hc1 & Hsem1); [done..|lia|done|].
  destruct (IH i c1 xr yr st1 sid a b) as
    (r & c2 & st2 & Hrun2 & Hg2 & [hr Hwr] & Hc2 & Hsem2);
    [by rewrite (grows_factors _ _ Hg1)|by eapply wf_ref_grows..|lia|done|].
  destruct (emplace_total (N.min (depth nx) (depth ny)) l r st2 sid)
    as (v & st3 & He).
  { by rewrite (grows_factors _ _ Hg2), (grows_factors _ _ Hg1). }
  pose proof (emplace_grows _ _ _ _ _ _ He) as Hg3.
  assert (grows st st3) as Hg by (etrans; [|done]; by etrans).
  assert (∀ env bx by', eval st env (Ptr sx kx) bx →
            eval st env (Ptr sy ky) by' →
            eval st3 env v (join_op i bx by')) as Hsem.
  { intros env bx by' Hx Hy. eapply emplace_eval; [done|].
    destruct (branch_views_eval st env sx kx sy ky nx ny xl xr yl yr bx by')
      as [Hbx Hby]; try done.
    destruct (env (N.min (depth nx) (depth ny))).
    - apply Hsem2; by eapply eval_grows.
    - eapply eval_grows; [done|]. by apply Hsem1. }
  assert (wf_ref (S (hl `max` hr)) st3 v = true) as Hwv.
  { eapply emplace_wf; [done| |done]. by eapply wf_ref_grows. }
  exists v, (<[join_key (Ptr sx kx) (Ptr sy ky) := v]> c2), st3. split_and!.
  - unfold bindM. rewrite Hrun1, Hrun2, He. done.
  - done.
  - eauto.
  - intros a' b' w. rewrite lookup_insert. case_decide as Hk.
    + intros [= <-]. split; [eauto|].
      symmetry in Hk.
      apply join_key_inj in Hk as [[-> ->]|[-> ->]].
      * exists (λ env, run (S hx') st env (Ptr sx kx)),
               (λ env, run (S hy') st env (Ptr sy ky)).
        split_and!.
        -- eapply denotes_grows; [done|]. by apply wf_ref_denotes.
        -- eapply denotes_grows; [done|]. by apply wf_ref_denotes.
        -- intros env. apply Hsem; by apply wf_ref_run.
      * exists (λ env, run (S hy') st env (Ptr sy ky)),
               (λ env, run (S hx') st env (Ptr sx kx)).
        split_and!.
        -- eapply denotes_grows; [done|]. by apply wf_ref_denotes.
        -- eapply denotes_grows; [done|]. by apply wf_ref_denotes.
        -- intros env. rewrite join_op_comm. apply Hsem; by apply wf_ref_run.
    + by apply (join_cache_ok_grows st2 st3).
  - done.
Qed.

(** ** Every change of the memory goes through [emplace] *)

Section stable.
Context (P : state → Prop) (HP : emplace_stable P).

Lemma invert_cached_stable fuel c x st r st' :
  P st → invert_cached fuel c x st = Ok (r, st') → P st'.
Proof using HP.
  revert c x st r st'.
  induction fuel as [|fuel IH]; intros c x st r st' HPst;
    rewrite invert_cached_unfold; repeat case_decide;
    destruct (c !! x); intros Hrun; inv_run; try done.
  eauto.
Qed.

Lemma invert_stable fuel x st r st' :
  P st → invert fuel x st = Ok (r, st') → P st'.
Proof using HP.
  unfold invert. intros HPst Hrun. inv_run.
  eauto using invert_cached_stable.
Qed.

Lemma join_cached_stable fuel c i a x y st r st' :
  P st → join_cached fuel c i a x y st = Ok (r, st') → P st'.
Proof using HP.
  revert c x y st r st'.
  induction fuel as [|fuel IH]; intros c x y st r st' HPst;
    rewrite join_cached_unfold; repeat case_decide;
    intros Hrun; inv_run; try done.
  all: destruct (c !! join_key x y); inv_run; try done.
  eauto.
Qed.

Lemma join_stable fuel i a x y rest st r st' :
  P st → join fuel i a x y rest st = Ok (r, st') → P st'.
Proof using HP.
  revert x y st. induction rest as [|z rest IH]; intros x y st HPst;
    cbn [join]; intros Hrun; inv_run.
  - eauto using join_cached_stable.
  - eapply IH; [|done]. eauto using join_cached_stable.
Qed.

Lemma literal_stable i s st r st' :
  P st → literal i s st = Ok (r, st') → P st'.
Proof using HP. unfold literal. eauto. Qed.

End stable.

Lemma grows_stable st0 : emplace_stable (grows st0).
Proof. intros d l r st v st' Hg He. etrans; [done|]. by eapply emplace_grows. Qed.

(** ** Sessions are preserved *)

Lemma child_ok_Ptr s sid i d s' j :
  child_ok s sid i d (Ptr s' j) = true ↔
  s' = sid ∧ j < i ∧ ∃ m, s !! j = Some m ∧ (d < depth m)%N.
Proof.
  unfold child_ok. rewrite !andb_true_iff, !bool_decide_eq_true.
  destruct (s !! j) as [m|].
  - rewrite bool_decide_eq_true. naive_solver.
  - naive_solver.
Qed.

Lemma child_ok_app s t sid i d c :
  child_ok s sid i d c = true → child_ok (s ++ t) sid i d c = true.
Proof.
  destruct c as [| |s' j]; try done.
  rewrite !child_ok_Ptr. intros (-> & Hj & m & Hm & Hd).
  split_and!; try done. exists m. split; [|done].
  by apply lookup_app_l_Some.
Qed.

Lemma child_ok_mono s sid i i' d c :
  i ≤ i' → child_ok s sid i d c = true → child_ok s sid i' d c = true.
Proof.
  destruct c as [| |s' j]; try done.
  rewrite !child_ok_Ptr. intros ? (-> & Hj & m & Hm & Hd).
  split_and!; eauto with lia.
Qed.

Lemma node_ok_spec s sid i n :
  node_ok s sid i n = true ↔
  negative n ≠ positive n ∧
  child_ok s sid i (depth n) (negative n) = true ∧
  child_ok s sid i (depth n) (positive n) = true.
Proof.
  unfold node_ok. rewrite !andb_true_iff, bool_decide_eq_true. naive_solver.
Qed.

Lemma store_ok_spec sid s :
  store_ok sid s = true ↔
  NoDup s ∧ ∀ i n, s !! i = Some n → node_ok s sid i n = true.
Proof.
  unfold store_ok. rewrite andb_true_iff, bool_decide_eq_true.
  rewrite forallb_forall. split; intros [Hnd Hall]; (split; [done|]).
  - intros i n Hi. specialize (Hall i). rewrite Hi in Hall. apply Hall.
    apply in_seq. apply lookup_lt_Some in Hi. lia.
  - intros i _. destruct (s !! i) as [n|] eqn:Hi; [|done]. by apply Hall.
Qed.

Lemma session_lookup st sid i n :
  session st sid → store_of st sid !! i = Some n →
  negative n ≠ positive n ∧
  child_ok (store_of st sid) sid i (depth n) (negative n) = true ∧
  child_ok (store_of st sid) sid i (depth n) (positive n) = true.
Proof.
  intros [_ [_ Hall]%store_ok_spec] Hi. by apply node_ok_spec, Hall.
Qed.

Lemma member_Ptr st sid s' j :
  member st sid (Ptr s' j) = true ↔
  s' = sid ∧ j < length (store_of st sid).
Proof.
  unfold member. by rewrite andb_true_iff, !bool_decide_eq_true.
Qed.

Lemma member_grows st st' sid r :
  grows st st' → member st sid r = true → member st' sid r = true.
Proof.
  intros Hg. destruct r as [| |s' j]; try done.
  rewrite !member_Ptr. intros [-> Hj]. split; [done|].
  pose proof (prefix_length _ _ (grows_prefix _ _ Hg sid)). lia.
Qed.

Lemma above_grows st st' d r :
  grows st st' → above st d r → above st' d r.
Proof.
  intros Hg. destruct r as [| |s' j]; try done.
  intros (n & Hn & Hd). exists n. split; [|done].
  by eapply grows_node_at.
Qed.

Lemma above_lt st d d' r : (d' ≤ d)%N → above st d r → above st d' r.
Proof.
  intros Hle. destruct r as [| |s' j]; try done.
  intros (n & Hn & Hd). exists n. split; [done|lia].
Qed.

(** A child accepted by [child_ok] is a member testing a later variable. *)
Lemma child_ok_member st sid i d c :
  i ≤ length (store_of st sid) →
  child_ok (store_of st sid) sid i d c = true →
  member st sid c = true ∧ above st d c.
Proof.
  destruct c as [| |s' j]; try done.
  rewrite child_ok_Ptr, member_Ptr. intros Hi (-> & Hj & m & Hm & Hd).
  split; [split; [done|lia]|]. by exists m.
Qed.

Lemma member_above_child_ok st sid d c :
  member st sid c = true → above st d c →
  child_ok (store_of st sid) sid (length (store_of st sid)) d c = true.
Proof.
  destruct c as [| |s' j]; try done.
  rewrite child_ok_Ptr, member_Ptr. intros [-> Hj] (m & Hm & Hd).
  split_and!; try done. by exists m.
Qed.

(** [emplace] keeps a session well shaped when the children it is given are
    members that test later variables. *)
Lemma emplace_session d l r st v st' sid :
  session st sid →
  member st sid l = true → member st sid r = true →
  above st d l → above st d r →
  emplace d l r st = Ok (v, st') →
  session st' sid ∧ member st' sid v = true ∧
  ∀ d', (d' < d)%N → above st' d' v.
Proof.
  intros [Hb Hok] Hml Hmr Hal Har He.
  apply emplace_Ok in He
    as [(-> & -> & ->)|(Hne & sid' & i & Hb' & -> & Hn & Hst)].
  { split_and!; [done..|]. intros d' Hd. eapply above_lt; [|done]. lia. }
  assert (sid' = sid) as -> by congruence.
  assert (∀ d', (d' < d)%N → above st' d' (Ptr sid i)) as Habove.
  { intros d' Hd. exists (Node d l r). split; [done|]. simpl. lia. }
  destruct Hst as [->|(-> & Hnew & ->)].
  { split_and!; [done| |done]. apply member_Ptr. split; [done|].
    by eapply lookup_lt_Some. }
  split_and!; [|apply member_Ptr; split; [done|]|done].
  - split; [done|]. rewrite store_of_set_store, decide_True by done.
    apply store_ok_spec in Hok as [Hnd Hall].
    apply store_ok_spec. split.
    + apply NoDup_app. split_and!; [done| |apply NoDup_singleton].
      intros x Hx ->%list_elem_of_singleton. done.
    + intros k n Hk. apply lookup_app_Some in Hk as [Hk|[Hlen Hk]].
      * specialize (Hall k n Hk). apply node_ok_spec in Hall as (?&?&?).
        apply node_ok_spec. split_and!; [done|by apply child_ok_app..].
      * apply list_lookup_singleton_Some in Hk as [Hk0 <-].
        assert (k = length (store_of st sid)) as -> by lia.
        apply node_ok_spec. simpl. split_and!; [done|..].
        -- apply child_ok_app. by apply member_above_child_ok.
        -- apply child_ok_app. by apply member_above_child_ok.
  - rewrite store_of_set_store, decide_True by done.
    rewrite length_app. simpl. lia.
Qed.

Lemma above_shrink st st' sid d r :
  grows st st' → member st sid r = true → above st' d r → above st d r.
Proof.
  intros Hg. destruct r as [| |s' j]; try done.
  rewrite member_Ptr. intros [-> Hj] (n & Hn & Hd).
  destruct (lookup_lt_is_Some_2 _ _ Hj) as [n0 Hn0].
  exists n0. split; [done|].
  pose proof (grows_node_at st st' (Ptr sid j) n0 Hg Hn0). by simplify_eq.
Qed.

(** The children of a member are members and test later variables. *)
Lemma member_children st sid s j n :
  session st sid → member st sid (Ptr s j) = true →
  node_at st (Ptr s j) = Some n →
  negative n ≠ positive n ∧
  member st sid (negative n) = true ∧ above st (depth n) (negative n) ∧
  member st sid (positive n) = true ∧ above st (depth n) (positive n).
Proof.
  intros Hs [-> Hj]%member_Ptr Hn. simpl in Hn.
  destruct (session_lookup _ _ _ _ Hs Hn) as (Hne & H1 & H2).
  apply child_ok_member in H1 as [??]; [|lia].
  apply child_ok_member in H2 as [??]; [|lia]. done.
Qed.

Lemma inv_cache_mem_grows st st' sid c :
  grows st st' → inv_cache_mem st sid c → inv_cache_mem st' sid c.
Proof.
  intros Hg Hc a v Hav. destruct (Hc a v Hav) as (Ha & Hv & Habove).
  split_and!; [by eapply member_grows..|].
  intros d Hd. eapply above_grows; [done|]. apply Habove.
  by eapply above_shrink.
Qed.

Lemma invert_cached_session fuel :
  ∀ c x st sid v c' st',
    session st sid → member st sid x = true → inv_cache_mem st sid c →
    invert_cached fuel c x st = Ok ((v, c'), st') →
    grows st st' ∧ session st' sid ∧ member st' sid v = true ∧
    inv_cache_mem st' sid c' ∧
    ∀ d, above st d x → above st' d v.
Proof.
  induction fuel as [|fuel IH]; intros c x st sid v c' st' Hs Hx Hc;
    rewrite invert_cached_unfold; repeat case_decide;
    try (intros Hrun; inv_run; by split_and!).
  all: destruct (c !! x) as [w|] eqn:Hcx;
    [intros Hrun; inv_run; destruct (Hc _ _ Hcx) as (? & ? & ?);
     by split_and!|]; try done.
  intros Hrun. inv_run.
  destruct x as [| |s j]; try done.
  match goal with H : node_at st _ = Some ?m |- _ =>
    rename m into n; rename H into Hn end.
  destruct (member_children _ _ _ _ _ Hs Hx Hn) as (Hne & Hm1 & Ha1 & Hm2 & Ha2).
  match goal with
  | H1 : invert_cached _ c (negative n) _ = Ok (?l, ?c1, ?st1),
    H2 : invert_cached _ _ (positive n) _ = Ok (?r, ?c2, ?st2),
    H3 : emplace _ _ _ _ = Ok _ |- _ =>
      destruct (IH _ _ _ _ _ _ _ Hs Hm1 Hc H1) as (Hg1 & Hs1 & Hml & Hc1 & Hal);
      destruct (IH c1 (positive n) st1 sid r c2 st2) as (Hg2 & Hs2 & Hmr & Hc2 & Har);
      [done|by eapply member_grows|done|done|];
      pose proof (emplace_grows _ _ _ _ _ _ H3) as Hg3;
      destruct (emplace_session _ _ _ _ _ _ sid Hs2
                  (member_grows _ _ _ _ Hg2 Hml) Hmr
                  (above_grows _ _ _ _ Hg2 (Hal _ Ha1))
                  (Har _ (above_grows _ _ _ _ Hg1 Ha2)) H3)
        as (Hs3 & Hmv & Hav)
  end.
  match goal with |- grows st ?s ∧ _ =>
    assert (grows st s) as Hg by (etrans; [|done]; by etrans) end.
  split_and!; try done.
  - intros a w. rewrite lookup_insert. case_decide as Ha.
    + intros [= <-]. subst a. split_and!; [by eapply member_grows|done|].
      intros d (n' & Hn' & Hd). apply Hav.
      pose proof (grows_node_at _ _ _ _ Hg Hn). by simplify_eq.
    + by apply (inv_cache_mem_grows _ _ _ _ Hg3).
  - intros d (n' & Hn' & Hd). apply Hav. by simplify_eq.
Qed.

Lemma join_cache_mem_grows st st' sid c :
  grows st st' → join_cache_mem st sid c → join_cache_mem st' sid c.
Proof.
  intros Hg Hc a b v Hv. destruct (Hc a b v Hv) as (Ha & Hb & Hmv & Habove).
  split_and!; [by eapply member_grows..|].
  intros d Hda Hdb. eapply above_grows; [done|].
  apply Habove; by eapply above_shrink.
Qed.

Lemma join_cache_mem_empty st sid : join_cache_mem st sid ∅.
Proof. intros a b v. by rewrite lookup_empty. Qed.

(** The branch views of two members are members that test variables after
    the smaller of the two depths. *)
Lemma branch_views_session st sid sx kx sy ky nx ny xl xr yl yr :
  session st sid →
  member st sid (Ptr sx kx) = true → member st sid (Ptr sy ky) = true →
  node_at st (Ptr sx kx) = Some nx → node_at st (Ptr sy ky) = Some ny →
  branch_views (Ptr sx kx) (Ptr sy ky) nx ny = (xl, xr, yl, yr) →
  let m := N.min (depth nx) (depth ny) in
  (member st sid xl = true ∧ above st m xl) ∧
  (member st sid xr = true ∧ above st m xr) ∧
  (member st sid yl = true ∧ above st m yl) ∧
  (member st sid yr = true ∧ above st m yr).
Proof.
  intros Hs Hx Hy Hnx Hny Hv m.
  destruct (member_children _ _ _ _ _ Hs Hx Hnx) as (_ & ? & ? & ? & ?).
  destruct (member_children _ _ _ _ _ Hs Hy Hny) as (_ & ? & ? & ? & ?).
  unfold branch_views in Hv. subst m.
  repeat case_decide; simplify_eq.
  - rewrite N.min_r by lia. split_and!; try done; exists nx; split; done.
  - rewrite N.min_l by lia. split_and!; try done; exists ny; split; done.
  - assert (depth nx = depth ny) as Heq by lia.
    rewrite N.min_l by lia. split_and!; try done; by rewrite Heq.
Qed.

Lemma join_cached_session fuel :
  ∀ i c x y st sid v c' st',
    session st sid →
    member st sid x = true → member st sid y = true →
    join_cache_mem st sid c →
    join_cached fuel c (terminal i) (terminal (negb i)) x y st
      = Ok ((v, c'), st') →
    grows st st' ∧ session st' sid ∧ member st' sid v = true ∧
    join_cache_mem st' sid c' ∧
    ∀ d, above st d x → above st d y → above st' d v.
Proof.
  induction fuel as [|fuel IH]; intros i c x y st sid v c' st' Hs Hx Hy Hc;
    rewrite join_cached_unfold.
  all: destruct (decide (x = terminal i)) as [->|Hxi];
    [intros Hrun; inv_run; by split_and!|].
  all: destruct (decide (y = terminal i)) as [->|Hyi];
    [intros Hrun; inv_run; by split_and!|].
  all: destruct (decide (x = terminal (negb i) ∨ y = terminal (negb i)))
         as [Ha|Ha];
    [intros Hrun; inv_run; split_and!; try done; by destruct i|].
  all: assert (x ≠ terminal (negb i) ∧ y ≠ terminal (negb i)) as [Hxa Hya]
         by (split; intros ?; apply Ha; auto).
  all: destruct (not_terminal_Ptr x i Hxi Hxa) as (sx & kx & ->).
  all: destruct (not_terminal_Ptr y i Hyi Hya) as (sy & ky & ->).
  all: unfold bindM at 1, deref;
       destruct (node_at st (Ptr sx kx)) as [nx|] eqn:Hnx; [|done].
  all: unfold bindM at 1;
       destruct (node_at st (Ptr sy ky)) as [ny|] eqn:Hny; [|done].
  all: destruct (branch_views _ _ nx ny) as [[[xl xr] yl] yr] eqn:Hv.
  all: destruct (c !! join_key (Ptr sx kx) (Ptr sy ky)) as [w|] eqn:Hcw;
    [intros Hrun; inv_run;
     destruct (Hc (Ptr sx kx) (Ptr sy ky) _ Hcw) as (? & ? & ? & ?);
     by split_and!|]; try done.
  intros Hrun. inv_run.
  destruct (branch_views_session _ _ _ _ _ _ _ _ _ _ _ _ Hs Hx Hy Hnx Hny Hv)
    as ([Hmxl Haxl] & [Hmxr Haxr] & [Hmyl Hayl] & [Hmyr Hayr]).
  match goal with
  | H1 : join_cached _ c _ _ xl yl _ = Ok (?l, ?c1, ?st1),
    H2 : join_cached _ _ _ _ xr yr _ = Ok (?r, ?c2, ?st2),
    H3 : emplace _ _ _ _ = Ok _ |- _ =>
      destruct (IH _ _ _ _ _ _ _ _ _ Hs Hmxl Hmyl Hc H1)
        as (Hg1 & Hs1 & Hml & Hc1 & Hal);
      destruct (IH i c1 xr yr st1 sid r c2 st2)
        as (Hg2 & Hs2 & Hmr & Hc2 & Har);
      [done|by eapply member_grows..|done|done|];
      pose proof (emplace_grows _ _ _ _ _ _ H3) as Hg3;
      destruct (emplace_session _ _ _ _ _ _ sid Hs2
                  (member_grows _ _ _ _ Hg2 Hml) Hmr
                  (above_grows _ _ _ _ Hg2 (Hal _ Haxl Hayl))
                  (Har _ (above_grows _ _ _ _ Hg1 Haxr)
                         (above_grows _ _ _ _ Hg1 Hayr)) H3)
        as (Hs3 & Hmv & Hav)
  end.
  match goal with |- grows st ?s ∧ _ =>
    assert (grows st s) as Hg by (etrans; [|done]; by etrans) end.
  assert (∀ d, above st d (Ptr sx kx) → above st d (Ptr sy ky) →
               (d < N.min (depth nx) (depth ny))%N) as Hmin.
  { intros d (nx' & Hnx' & Hdx) (ny' & Hny' & Hdy). simplify_eq. lia. }
  split_and!; try done.
  - intros a b w. rewrite lookup_insert. case_decide as Hk.
    + intros [= <-]. symmetry in Hk.
      apply join_key_inj in Hk as [[-> ->]|[-> ->]].
      * split_and!; [by eapply member_grows..|done|].
        intros d Hda Hdb. apply Hav, Hmin; by eapply above_shrink.
      * split_and!; [by eapply member_grows..|done|].
        intros d Hda Hdb. apply Hav, Hmin; by eapply above_shrink.
    + by apply (join_cache_mem_grows _ _ _ _ Hg3).
  - intros d Hda Hdb. by apply Hav, Hmin.
Qed.

(** ** Canonicity within a session *)

Lemma child_ok_rank s sid i d c : child_ok s sid i d c = true → rank c ≤ i.
Proof.
  destruct c as [| |s' j]; simpl; try lia.
  intros (_ & ? & _)%child_ok_Ptr. lia.
Qed.

Lemma member_children_rank st sid s j n :
  session st sid → member st sid (Ptr s j) = true →
  node_at st (Ptr s j) = Some n →
  rank (negative n) ≤ j ∧ rank (positive n) ≤ j.
Proof.
  intros Hs [-> Hj]%member_Ptr Hn. simpl in Hn.
  destruct (session_lookup _ _ _ _ Hs Hn) as (Hne & H1 & H2).
  split; by eapply child_ok_rank.
Qed.

Lemma member_node st sid s j :
  member st sid (Ptr s j) = true → ∃ n, node_at st (Ptr s j) = Some n.
Proof.
  intros [-> Hj]%member_Ptr. simpl. by apply lookup_lt_is_Some_2.
Qed.

(** A member is well formed: its height is at most its rank. *)
Lemma member_wf st sid r :
  session st sid → member st sid r = true → wf_ref (rank r) st r = true.
Proof.
  intros Hs. destruct r as [| |s j]; try done.
  revert s. induction j as [j IH] using lt_wf_ind. intros s Hm.
  destruct (member_node _ _ _ _ Hm) as [n Hn].
  destruct (member_children _ _ _ _ _ Hs Hm Hn) as (_ & Hm1 & _ & Hm2 & _).
  destruct (member_children_rank _ _ _ _ _ Hs Hm Hn) as [Hr1 Hr2].
  cbn [rank wf_ref]. rewrite Hn. apply andb_true_iff.
  assert (∀ c, member st sid c = true → rank c ≤ j →
               wf_ref j st c = true) as Hc.
  { intros [| |s' j'] Hmc Hrc; try by destruct j.
    simpl in Hrc. eapply wf_ref_mono; [|apply (IH j'); [lia|done]]. simpl. lia. }
  split; by apply Hc.
Qed.

Lemma member_eval st sid env r :
  session st sid → member st sid r = true → ∃ b, eval st env r b.
Proof. intros Hs Hm. eapply wf_ref_eval. by eapply member_wf. Qed.

(** A member that tests only variables after [d] reads the same under two
    assignments that agree after [d]. *)
Lemma eval_independent st sid d env env' r b :
  session st sid →
  (∀ v, (d < v)%N → env v = env' v) →
  member st sid r = true → above st d r →
  eval st env r b → eval st env' r b.
Proof.
  intros Hs Hagree Hm Ha He. revert d Hagree Hm Ha.
  induction He as [| |s j n b Hn He IH]; intros d Hagree Hm Ha;
    [constructor..|].
  destruct Ha as (n' & Hn' & Hd). simplify_eq.
  destruct (member_children _ _ _ _ _ Hs Hm Hn) as (_ & Hm1 & Ha1 & Hm2 & Ha2).
  econstructor; [done|]. rewrite <- (Hagree (depth n)) by done.
  apply (IH (depth n)).
  - intros v Hv. apply Hagree. lia.
  - by destruct (env (depth n)).
  - by destruct (env (depth n)).
Qed.

Lemma eval_override st sid d c env r b :
  session st sid → member st sid r = true → above st d r →
  eval st (override env d c) r b ↔ eval st env r b.
Proof.
  intros Hs Hm Ha. split; apply (eval_independent st sid d); try done.
  all: intros v Hv; unfold override; case_decide; [lia|done].
Qed.

(** Reading a child is reading the parent with the tested variable set. *)
Lemma eval_cofactor st sid s j n (c : bool) env b :
  session st sid → member st sid (Ptr s j) = true →
  node_at st (Ptr s j) = Some n →
  eval st env (if c then positive n else negative n) b ↔
  eval st (override env (depth n) c) (Ptr s j) b.
Proof.
  intros Hs Hm Hn.
  destruct (member_children _ _ _ _ _ Hs Hm Hn) as (_ & Hm1 & Ha1 & Hm2 & Ha2).
  assert (override env (depth n) c (depth n) = c) as Hc
    by (unfold override; by rewrite decide_True).
  rewrite <- (eval_override st sid (depth n) c env) by (by destruct c).
  split.
  - intros He. econstructor; [done|]. by rewrite Hc.
  - intros He. apply (eval_Ptr_inv _ _ _ _ _ _ Hn) in He. by rewrite Hc in He.
Qed.

(** A member cannot read the same as something that ignores the variable it
    tests, unless both of its children do, which reduction forbids. *)
Lemma equiv_children st sid s j n y :
  session st sid → member st sid (Ptr s j) = true →
  node_at st (Ptr s j) = Some n →
  member st sid y = true → above st (depth n) y →
  equiv st (Ptr s j) y →
  equiv st (negative n) y ∧ equiv st (positive n) y.
Proof.
  intros Hs Hm Hn Hmy Hay He. unfold equiv in He.
  split; intros env b.
  - rewrite (eval_cofactor st sid s j n false) by done.
    rewrite He. by apply (eval_override st sid).
  - rewrite (eval_cofactor st sid s j n true) by done.
    rewrite He. by apply (eval_override st sid).
Qed.

Lemma equiv_sym st x y : equiv st x y → equiv st y x.
Proof. intros H env b. by rewrite (H env b). Qed.

Lemma equiv_terminal st b1 b2 :
  equiv st (terminal b1) (terminal b2) → b1 = b2.
Proof.
  intros H. destruct (H (λ _, false) b1) as [H1 _].
  apply (eval_terminal st (λ _, false)). apply H1.
  by apply eval_terminal.
Qed.

(** Two members of one session that denote the same function are the same
    reference. *)
Lemma session_canonical st sid :
  session st sid →
  ∀ k x y, rank x + rank y ≤ k →
    member st sid x = true → member st sid y = true →
    equiv st x y → x = y.
Proof.
  intros Hs. induction k as [k IH] using lt_wf_ind.
  assert (∀ s j n y,
    rank (Ptr s j) + rank y ≤ k →
    member st sid (Ptr s j) = true → node_at st (Ptr s j) = Some n →
    member st sid y = true → above st (depth n) y →
    equiv st (Ptr s j) y → False) as Hskip.
  { intros s j n y Hk Hm Hn Hmy Hay He.
    destruct (member_children _ _ _ _ _ Hs Hm Hn) as (Hne & Hm1 & _ & Hm2 & _).
    destruct (member_children_rank _ _ _ _ _ Hs Hm Hn) as [Hr1 Hr2].
    destruct (equiv_children _ _ _ _ _ _ Hs Hm Hn Hmy Hay He) as [He1 He2].
    simpl in Hk. apply Hne. trans y.
    - apply (IH (rank (negative n) + rank y)); try done; lia.
    - symmetry. apply (IH (rank (positive n) + rank y)); try done; lia. }
  intros x y Hk Hmx Hmy He.
  destruct x as [| |sx kx], y as [| |sy ky]; try done.
  - by apply (equiv_terminal st false true) in He.
  - exfalso. destruct (member_node _ _ _ _ Hmy) as [ny Hny].
    eapply (Hskip sy ky ny ZERO); try done; [simpl in *; lia|by apply equiv_sym].
  - by apply (equiv_terminal st true false) in He.
  - exfalso. destruct (member_node _ _ _ _ Hmy) as [ny Hny].
    eapply (Hskip sy ky ny ONE); try done; [simpl in *; lia|by apply equiv_sym].
  - exfalso. destruct (member_node _ _ _ _ Hmx) as [nx Hnx].
    by eapply (Hskip sx kx nx ZERO).
  - exfalso. destruct (member_node _ _ _ _ Hmx) as [nx Hnx].
    by eapply (Hskip sx kx nx ONE).
  - destruct (member_node _ _ _ _ Hmx) as [nx Hnx].
    destruct (member_node _ _ _ _ Hmy) as [ny Hny].
    destruct (N.lt_trichotomy (depth nx) (depth ny)) as [Hlt|[Heq|Hgt]].
    + exfalso. eapply (Hskip sx kx nx (Ptr sy ky)); try done. by exists ny.
    + destruct (member_children _ _ _ _ _ Hs Hmx Hnx)
        as (_ & Hmx1 & Hax1 & Hmx2 & Hax2).
      destruct (member_children _ _ _ _ _ Hs Hmy Hny)
        as (_ & Hmy1 & Hay1 & Hmy2 & Hay2).
      destruct (member_children_rank _ _ _ _ _ Hs Hmx Hnx) as [Hrx1 Hrx2].
      destruct (member_children_rank _ _ _ _ _ Hs Hmy Hny) as [Hry1 Hry2].
      simpl in Hk.
      assert (negative nx = negative ny) as E1.
      { apply (IH (rank (negative nx) + rank (negative ny)) ltac:(lia));
          try done.
        intros env b.
        rewrite (eval_cofactor st sid sx kx nx false) by done.
        rewrite (eval_cofactor st sid sy ky ny false) by done.
        rewrite Heq. apply He. }
      assert (positive nx = positive ny) as E2.
      { apply (IH (rank (positive nx) + rank (positive ny)) ltac:(lia));
          try done.
        intros env b.
        rewrite (eval_cofactor st sid sx kx nx true) by done.
        rewrite (eval_cofactor st sid sy ky ny true) by done.
        rewrite Heq. apply He. }
      assert (nx = ny) as -> by (destruct nx, ny; simpl in *; congruence).
      apply member_Ptr in Hmx as [-> _]. apply member_Ptr in Hmy as [-> _].
      f_equal. destruct Hs as [_ [Hnd _]%store_ok_spec].
      by eapply NoDup_lookup.
    + exfalso. eapply (Hskip sy ky ny (Ptr sx kx)); try done.
      * simpl in *. lia.
      * by exists nx.
      * by apply equiv_sym.
Qed.

(** ** More fuel never changes a result *)

Lemma invert_cached_fuel_mono fuel :
  ∀ fuel' c x st r,
    fuel ≤ fuel' →
    invert_cached fuel c x st = Ok r → invert_cached fuel' c x st = Ok r.
Proof.
  induction fuel as [|fuel IH]; intros fuel' c x st r Hle;
    rewrite (invert_cached_unfold _ c x), (invert_cached_unfold fuel' c x);
    repeat case_decide; try done; destruct (c !! x); try done.
  destruct fuel' as [|fuel']; [lia|].
  unfold bindM, deref. destruct (node_at st x) as [n|]; [|done].
  destruct (invert_cached fuel c (negative n) st)
    as [[[l c1] st1]| | |] eqn:H1; try done.
  rewrite (IH fuel' _ _ _ _ ltac:(lia) H1).
  destruct (invert_cached fuel c1 (positive n) st1)
    as [[[r' c2] st2]| | |] eqn:H2; try done.
  by rewrite (IH fuel' _ _ _ _ ltac:(lia) H2).
Qed.

Lemma join_cached_fuel_mono fuel :
  ∀ fuel' c i a x y st r,
    fuel ≤ fuel' →
    join_cached fuel c i a x y st = Ok r →
    join_cached fuel' c i a x y st = Ok r.
Proof.
  induction fuel as [|fuel IH]; intros fuel' c i a x y st r Hle;
    rewrite (join_cached_unfold _ c i a x y),
            (join_cached_unfold fuel' c i a x y);
    repeat case_decide; try done.
  all: unfold bindM, deref; destruct (node_at st x) as [nx|]; [|done].
  all: destruct (node_at st y) as [ny|]; [|done].
  all: destruct (branch_views x y nx ny) as [[[xl xr] yl] yr].
  all: destruct (c !! join_key x y); try done.
  destruct fuel' as [|fuel']; [lia|].
  destruct (join_cached fuel c i a xl yl st)
    as [[[l c1] st1]| | |] eqn:Hr1; try done.
  rewrite (IH fuel' _ _ _ _ _ _ _ ltac:(lia) Hr1).
  destruct (join_cached fuel c1 i a xr yr st1)
    as [[[r' c2] st2]| | |] eqn:Hr2; try done.
  by rewrite (IH fuel' _ _ _ _ _ _ _ ltac:(lia) Hr2).
Qed.

(** ** Reachable memories *)

Lemma exec_stable P fuel c st r st' :
  emplace_stable P → P st → exec fuel c st = Ok (r, st') → P st'.
Proof.
  intros HP HPst. destruct c; simpl.
  - by apply HP.
  - by apply literal_stable.
  - by apply invert_stable.
  - by apply join_stable.
Qed.

Lemma exec_grows fuel c st r st' :
  exec fuel c st = Ok (r, st') → grows st st'.
Proof. apply (exec_stable (grows st)); [apply grows_stable|done]. Qed.

Lemma reduced_stable : emplace_stable reduced.
Proof.
  intros d l r st v st' Hred He sid i n Hn.
  apply emplace_Ok in He
    as [(_ & _ & ->)|(Hne & sid' & k & Hb & -> & _ & [->|(_ & _ & ->)])];
    [by eapply Hred..|].
  rewrite store_of_set_store in Hn. case_decide; [subst|by eapply Hred].
  apply lookup_app_Some in Hn as [Hn|[_ Hn]]; [by eapply Hred|].
  by apply list_lookup_singleton_Some in Hn as [_ <-].
Qed.

Lemma reachable_reduced st : reachable st → reduced st.
Proof.
  induction 1 as [z o|st p _ IH|st fuel c r st' _ IH Hrun].
  - intros sid i n. unfold store_of. simpl. by rewrite lookup_empty.
  - done.
  - by eapply exec_stable; [apply reduced_stable| |].
Qed.

(** ** The only fatal condition is a missing binding *)

Lemma emplace_NoStore d l r st :
  emplace d l r st = NoStore ↔ l ≠ r ∧ s_factors st = None.
Proof.
  unfold emplace. case_decide; [naive_solver|].
  destruct (s_factors st); [|naive_solver].
  destruct (slot_of _ _); naive_solver.
Qed.





(** ** The primitives within a session *)

Lemma inv_cache_ok_empty st : inv_cache_ok st ∅.
Proof. intros a v. by rewrite lookup_empty. Qed.

Lemma inv_cache_mem_empty st sid : inv_cache_mem st sid ∅.
Proof. intros a v. by rewrite lookup_empty. Qed.

Lemma invert_session st sid n fuel :
  session st sid → member st sid n = true → rank n ≤ fuel →
  ∃ r st',
    invert fuel n st = Ok (r, st') ∧
    grows st st' ∧ session st' sid ∧ member st' sid r = true ∧
    (∀ env b, eval st env n b → eval st' env r (negb b)) ∧
    (∀ d, above st d n → above st' d r).
Proof.
  intros Hs Hm Hf.
  destruct (invert_cached_correct fuel ∅ n st sid (rank n))
    as (r & c & st' & Hrun & Hg & _ & _ & Hsem);
    [apply Hs|by eapply member_wf|done|apply inv_cache_ok_empty|].
  destruct (invert_cached_session fuel ∅ n st sid r c st' Hs Hm
              (inv_cache_mem_empty _ _) Hrun) as (_ & Hs' & Hm' & _ & Ha).
  exists r, st'. split_and!; try done.
  unfold invert, bindM. by rewrite Hrun.
Qed.

Lemma join_cached_session_total st sid i x y fuel :
  session st sid → member st sid x = true → member st sid y = true →
  rank x + rank y ≤ S fuel →
  ∃ r c st',
    join_cached fuel ∅ (terminal i) (terminal (negb i)) x y st
      = Ok ((r, c), st') ∧
    grows st st' ∧ session st' sid ∧ member st' sid r = true ∧
    (∀ env bx by', eval st env x bx → eval st env y by' →
                   eval st' env r (join_op i bx by')) ∧
    (∀ d, above st d x → above st d y → above st' d r).
Proof.
  intros Hs Hx Hy Hf.
  destruct (join_cached_correct fuel i ∅ x y st sid (rank x) (rank y))
    as (r & c & st' & Hrun & Hg & _ & _ & Hsem);
    [apply Hs|by eapply member_wf..|done|apply join_cache_ok_empty|].
  destruct (join_cached_session fuel i ∅ x y st sid r c st' Hs Hx Hy
              (join_cache_mem_empty _ _) Hrun) as (_ & Hs' & Hm' & _ & Ha).
  exists r, c, st'. by split_and!.
Qed.

Lemma join_session sid i rest :
  ∀ x y st,
    session st sid → member st sid x = true → member st sid y = true →
    Forall (λ z, member st sid z = true) rest →
    ∃ fuel0, ∀ fuel, fuel0 ≤ fuel →
      ∃ r st',
        join fuel (terminal i) (terminal (negb i)) x y rest st
          = Ok (r, st') ∧
        grows st st' ∧ session st' sid ∧ member st' sid r = true.
Proof.
  induction rest as [|z rest IH]; intros x y st Hs Hx Hy Hrest.
  - exists (rank x + rank y). intros fuel Hf.
    destruct (join_cached_session_total st sid i x y fuel Hs Hx Hy)
      as (r & c & st' & Hrun & Hg & Hs' & Hm & _); [lia|].
    exists r, st'. split_and!; try done.
    cbn [join]. unfold bindM. by rewrite Hrun.
  - apply Forall_cons in Hrest as [Hz Hrest].
    destruct (join_cached_session_total st sid i x y (rank x + rank y)
                Hs Hx Hy) as (j & c & st1 & Hrun & Hg & Hs1 & Hm & _); [lia|].
    destruct (IH j z st1 Hs1 Hm (member_grows _ _ _ _ Hg Hz)) as [fuel1 Hrec].
    { eapply Forall_impl; [done|]. intros w. by apply member_grows. }
    exists (rank x + rank y `max` fuel1). intros fuel Hf.
    destruct (Hrec fuel ltac:(lia)) as (r & st' & Hrun' & Hg' & Hs' & Hm').
    exists r, st'. split_and!; try done; [|by etrans].
    cbn [join]. unfold bindM.
    rewrite (join_cached_fuel_mono (rank x + rank y) fuel _ _ _ _ _ _ _
               ltac:(lia) Hrun).
    exact Hrun'.
Qed.

(** Binding a store nothing was inserted into opens a session. *)
Lemma bind_empty_session p st r st' :
  store_of st p = [] → bind (Some p) st = Ok (r, st') → session st' p.
Proof.
  intros He [= <- <-]. split; [done|].
  unfold set_factors, store_of in *. simpl. by rewrite He.
Qed.

Lemma exec_session st sid c :
  session st sid → call_ok st sid c →
  ∃ fuel0, ∀ fuel, fuel0 ≤ fuel →
    ∃ r st',
      exec fuel c st = Ok (r, st') ∧
      grows st st' ∧ session st' sid ∧ member st' sid r = true.
Proof.
  intros Hs Hc. destruct c as [d l r|i s|n|i a x y rest]; simpl in *.
  - destruct Hc as (Hl & Hr & Hal & Har). exists 0. intros fuel _.
    destruct (emplace_total d l r st sid) as (v & st' & He); [apply Hs|].
    destruct (emplace_session _ _ _ _ _ _ _ Hs Hl Hr Hal Har He) as (?&?&_).
    exists v, st'. split_and!; try done. by eapply emplace_grows.
  - exists 0. intros fuel _. unfold literal.
    destruct (emplace_total i (if negb s then ONE else ZERO)
                (if s then ONE else ZERO) st sid) as (v & st' & He);
      [apply Hs|].
    destruct (emplace_session i (if negb s then ONE else ZERO)
                (if s then ONE else ZERO) st v st' sid) as (?&?&_);
      [done|by destruct s..|done|].
    exists v, st'. split_and!; try done. by eapply emplace_grows.
  - exists (rank n). intros fuel Hf.
    destruct (invert_session st sid n fuel Hs Hc Hf)
      as (r & st' & ? & ? & ? & ? & _).
    by exists r, st'.
  - destruct Hc as ((b & -> & ->) & Hx & Hy & Hrest).
    by apply join_session.
Qed.

(** ** The concrete memories *)

Example demo_built :
  (letM _ := bind (Some 1) in
   letM a := literal 0 true in
   letM b := literal 1 false in
   ret (a, b)) fresh = Ok ((Ptr 1 0, Ptr 1 1), demo).
Proof. reflexivity. Qed.

Example demo_session : session demo 1.
Proof. split; reflexivity. Qed.

Example two_stores_built :
  (letM _ := bind (Some 1) in
   letM a := literal 0 true in
   letM p := bind (Some 2) in
   ret (a, p)) fresh = Ok ((Ptr 1 0, Some 1), two_stores).
Proof. reflexivity. Qed.

(** The disjunction of [literal(0, false)] and [literal(1, false)] tests
    variable 0, is [ONE] on the negative side and the second literal itself
    on the positive side. *)
Example disjoin_independent_shape :
  (letM _ := bind (Some 1) in
   letM a := literal 0 false in
   letM b := literal 1 false in
   letM d := disjoin 2 a b [] in
   letM n := deref d in
   letM p := deref (positive n) in
   ret (b, n, p)) fresh
  = Ok ((Ptr 1 1, Node 0 ONE (Ptr 1 1), Node 1 ONE ZERO),
        set_store 1 [Node 0 ONE ZERO; Node 1 ONE ZERO;
                     Node 0 ONE (Ptr 1 1)]
          (set_factors (Some 1) fresh)).
Proof. reflexivity. Qed.

(** A literal and its complement: their disjunction is [ONE] and their
    conjunction is [ZERO]. *)
Example complementation_law :
  ∃ st',
    (letM _ := bind (Some 1) in
     letM a := literal 0 true in
     letM a_bar := literal 0 false in
     letM d := disjoin 1 a a_bar [] in
     letM c := conjoin 1 a a_bar [] in
     ret (d, c)) fresh = Ok ((ONE, ZERO), st').
Proof. eexists. reflexivity. Qed.

(** [conjoin(x, y, z)] and [conjoin(conjoin(x, y), z)] are one reference. *)
Example conjoin_three_operands :
  ∃ r st1 st2,
    conjoin 3 (Ptr 1 0) (Ptr 1 1) [Ptr 1 0] demo = Ok (r, st1) ∧
    (letM j := conjoin 3 (Ptr 1 0) (Ptr 1 1) [] in
     conjoin 3 j (Ptr 1 0) []) demo = Ok (r, st2).
Proof. do 3 eexists. split; reflexivity. Qed.

Example demo_reachable : reachable demo.
Proof.
  apply (reach_exec (set_store 1 [Node 0 ZERO ONE] (set_factors (Some 1) fresh))
           0 (Literal 1 false) (Ptr 1 1)); [|reflexivity].
  apply (reach_exec (set_factors (Some 1) fresh)
           0 (Literal 0 true) (Ptr 1 0)); [|reflexivity].
  apply reach_bind, reach_fresh.
Defined.

(** ** Repeated calls, equivalence, the caches of a variadic call *)

Lemma slot_of_app_new n s : n ∉ s → slot_of n (s ++ [n]) = Some (length s).
Proof.
  intros Hn. unfold slot_of. rewrite list_find_app_r.
  - simpl. rewrite decide_True by done. simpl. f_equal; lia.
  - apply list_find_None. rewrite Forall_forall. intros m Hm ->. done.
Qed.

(** A repeated call of [emplace] finds what the first one returned, in any
    later memory with the same binding whose bound store extends the one the
    first call left. *)
Lemma emplace_again d l r st v st1 st2 :
  emplace d l r st = Ok (v, st1) →
  s_factors st2 = s_factors st →
  (∀ sid, s_factors st = Some sid →
          store_of st1 sid `prefix_of` store_of st2 sid) →
  emplace d l r st2 = Ok (v, st2).
Proof.
  unfold emplace. case_decide; [by intros [= -> _]|].
  intros Hrun Hb Hpre. rewrite Hb.
  destruct (s_factors st) as [sid|]; [|done].
  specialize (Hpre sid eq_refl).
  destruct (slot_of _ (store_of st sid)) as [i|] eqn:Hslot.
  - injection Hrun as <- <-.
    by rewrite (slot_of_prefix _ _ _ _ Hpre Hslot).
  - injection Hrun as <- <-.
    erewrite slot_of_prefix; [done|apply Hpre|].
    rewrite store_of_set_store, decide_True by done.
    apply slot_of_app_new. by apply slot_of_None.
Qed.

Lemma equiv_intro st x y :
  (∀ env, ∃ b, eval st env x b ∧ eval st env y b) → equiv st x y.
Proof.
  intros H env b. destruct (H env) as (b0 & Hx & Hy).
  split; intros Hb.
  - by rewrite (eval_det _ _ _ _ _ Hb Hx).
  - by rewrite (eval_det _ _ _ _ _ Hb Hy).
Qed.

Lemma join_is_fold fuel i a rest :
  ∀ x y st, join fuel i a x y rest st = join_fold fuel i a x (y :: rest) st.
Proof.
  induction rest as [|z rest IH]; intros x y st.
  - cbn [join join_fold]. unfold join_pair, bindM, ret.
    by destruct (join_cached fuel ∅ i a x y st) as [[[j c] st1]| | |].
  - cbn [join]. cbn [join_fold] in IH |- *.
    unfold join_pair, bindM, ret in IH |- *.
    destruct (join_cached fuel ∅ i a x y st) as [[[j c] st1]| | |];
      first [done|apply IH].
Qed.

Lemma join_caches_result fuel i a rest :
  ∀ x y st,
    (letM (r, _) := join_caches fuel i a x y rest in ret r) st
    = join fuel i a x y rest st.
Proof.
  induction rest as [|z rest IH]; intros x y st;
    cbn [join join_caches]; unfold bindM, ret in *;
    destruct (join_cached fuel ∅ i a x y st) as [[[j c] st1]| | |];
    try done.
  rewrite <- IH.
  by destruct (join_caches fuel i a j z rest st1) as [[[r cs] st2]| | |].
Qed.

Lemma join_caches_count fuel i a rest :
  ∀ x y st,
    (letM (_, cs) := join_caches fuel i a x y rest in ret (length cs)) st
    = (letM _ := join fuel i a x y rest in ret (S (length rest))) st.
Proof.
  induction rest as [|z rest IH]; intros x y st;
    cbn [join join_caches]; unfold bindM, ret in *;
    destruct (join_cached fuel ∅ i a x y st) as [[[j c] st1]| | |];
    try done.
  specialize (IH j z st1).
  destruct (join_caches fuel i a j z rest st1) as [[[r cs] st2]| | |];
    destruct (join fuel i a j z rest st1) as [[r' st2']| | |];
    simplify_eq; try done.
  simpl. congruence.
Qed.


(** ** Calls return *)

Lemma returns_ret {A : Type} (a : A) st : returns (λ _, ret a) st a st.
Proof. by exists 0. Qed.

Lemma returns_bind {A B : Type} (m : nat → M A) (k : nat → A → M B)
    st a st1 b st2 :
  returns m st a st1 → returns (λ fuel, k fuel a) st1 b st2 →
  returns (λ fuel, letM x := m fuel in k fuel x) st b st2.
Proof.
  intros [f1 H1] [f2 H2]. exists (f1 `max` f2). intros fuel Hf.
  unfold bindM. rewrite (H1 fuel) by lia. apply H2. lia.
Qed.

Lemma invert_returns st sid n :
  session st sid → member st sid n = true →
  ∃ r st',
    returns (λ fuel, invert fuel n) st r st' ∧
    grows st st' ∧ session st' sid ∧ member st' sid r = true ∧
    (∀ env b, eval st env n b → eval st' env r (negb b)).
Proof.
  intros Hs Hm.
  destruct (invert_session st sid n (rank n) Hs Hm) as
    (r & st' & Hrun & Hg & Hs' & Hm' & Hsem & _); [done|].
  exists r, st'. split_and!; try done.
  exists (rank n). intros fuel Hf. unfold invert, bindM in *.
  destruct (invert_cached (rank n) ∅ n st) as [[[v c] st1]| | |] eqn:Hc;
    try done.
  by rewrite (invert_cached_fuel_mono _ fuel _ _ _ _ Hf Hc).
Qed.

Lemma join_pair_returns st sid i x y :
  session st sid → member st sid x = true → member st sid y = true →
  ∃ r st',
    returns (λ fuel, join fuel (terminal i) (terminal (negb i)) x y [])
            st r st' ∧
    grows st st' ∧ session st' sid ∧ member st' sid r = true ∧
    (∀ env bx by', eval st env x bx → eval st env y by' →
                   eval st' env r (join_op i bx by')).
Proof.
  intros Hs Hx Hy.
  destruct (join_cached_session_total st sid i x y (rank x + rank y)
              Hs Hx Hy) as (r & c & st' & Hrun & Hg & Hs' & Hm & Hsem & _);
    [lia|].
  exists r, st'. split_and!; try done.
  exists (rank x + rank y). intros fuel Hf. cbn [join]. unfold bindM.
  by rewrite (join_cached_fuel_mono _ fuel _ _ _ _ _ _ _ Hf Hrun).
Qed.

Lemma literal_session i s st sid :
  session st sid →
  ∃ r st',
    literal i s st = Ok (r, st') ∧
    grows st st' ∧ session st' sid ∧ member st' sid r = true ∧
    (∀ env, eval st' env r (if s then env i else negb (env i))).
Proof.
  intros Hs. unfold literal.
  destruct (emplace_total i (if negb s then ONE else ZERO)
              (if s then ONE else ZERO) st sid) as (v & st' & He);
    [apply Hs|].
  destruct (emplace_session i (if negb s then ONE else ZERO)
              (if s then ONE else ZERO) st v st' sid) as (Hs' & Hm & _);
    [done|by destruct s..|done|].
  exists v, st'. split_and!; try done; [by eapply emplace_grows|].
  intros env. eapply emplace_eval; [exact He|].
  destruct s, (env i); simpl; constructor.
Qed.








(** * Part IV: the properties the specification states *)

(** C1.  For members [x] and [y] of the bound session, whatever their
    depths, [conjoin(x, y)] returns a member of the session that reads, under
    every assignment, as the conjunction of what [x] and [y] read, and
    [disjoin(x, y)] one that reads as their disjunction. *)
Theorem conjoin_disjoin_denote st sid x y fuel :
  session st sid →
  member st sid x = true → member st sid y = true →
  rank x + rank y ≤ S fuel →
  (∃ r st',
     conjoin fuel x y [] st = Ok (r, st') ∧
     session st' sid ∧ member st' sid r = true ∧
     ∀ env, ∃ bx by',
       eval st env x bx ∧ eval st env y by' ∧ eval st' env r (bx && by')) ∧
  (∃ r st',
     disjoin fuel x y [] st = Ok (r, st') ∧
     session st' sid ∧ member st' sid r = true ∧
     ∀ env, ∃ bx by',
       eval st env x bx ∧ eval st env y by' ∧ eval st' env r (bx || by')).
Proof.
  intros Hs Hx Hy Hf.
  assert (∀ i, ∃ r st',
    join fuel (terminal i) (terminal (negb i)) x y [] st = Ok (r, st') ∧
    session st' sid ∧ member st' sid r = true ∧
    ∀ env, ∃ bx by',
      eval st env x bx ∧ eval st env y by' ∧
      eval st' env r (join_op i bx by')) as Hjoin.
  { intros i.
    destruct (join_cached_session_total st sid i x y fuel Hs Hx Hy Hf)
      as (r & c & st' & Hrun & _ & Hs' & Hm & Hsem & _).
    exists r, st'. split_and!; try done.
    - cbn [join]. unfold bindM. by rewrite Hrun.
    - intros env.
      destruct (member_eval st sid env x Hs Hx) as [bx Hbx].
      destruct (member_eval st sid env y Hs Hy) as [by' Hby].
      exists bx, by'. split_and!; try done. by apply Hsem. }
  split; [apply (Hjoin true)|apply (Hjoin false)].
Qed.

Lemma conjoin_disjoin_denote_witness :
  (session demo 1 ∧
   member demo 1 (Ptr 1 0) = true ∧ member demo 1 (Ptr 1 1) = true ∧
   rank (Ptr 1 0) + rank (Ptr 1 1) ≤ 3) ∧
  (∃ r st',
     conjoin 2 (Ptr 1 0) (Ptr 1 1) [] demo = Ok (r, st') ∧
     session st' 1 ∧ member st' 1 r = true ∧
     ∀ env, ∃ bx by',
       eval demo env (Ptr 1 0) bx ∧ eval demo env (Ptr 1 1) by' ∧
       eval st' env r (bx && by')) ∧
  (∃ r st',
     disjoin 2 (Ptr 1 0) (Ptr 1 1) [] demo = Ok (r, st') ∧
     session st' 1 ∧ member st' 1 r = true ∧
     ∀ env, ∃ bx by',
       eval demo env (Ptr 1 0) bx ∧ eval demo env (Ptr 1 1) by' ∧
       eval st' env r (bx || by')).
Proof.
  split.
  - split_and!; [split; reflexivity|reflexivity|reflexivity|simpl; lia].
  - apply (conjoin_disjoin_denote demo 1 (Ptr 1 0) (Ptr 1 1) 2).
    + split; reflexivity.
    + reflexivity.
    + reflexivity.
    + simpl; lia.
Defined.

(** C2, as the claim states its middle part: two calls of [emplace] on one
    bound store whose fields differ return the same reference.  The first
    call has equal children and is answered by the reduction rule with that
    child, which is the very node the second call interns. *)
Lemma emplace_differing_fields_same_reference :
  Node 5 (Ptr 1 0) (Ptr 1 0) ≠ Node 0 ZERO ONE ∧
  emplace 5 (Ptr 1 0) (Ptr 1 0) demo = Ok (Ptr 1 0, demo) ∧
  emplace 0 ZERO ONE demo = Ok (Ptr 1 0, demo).
Proof. split_and!; [discriminate|reflexivity|reflexivity]. Qed.

(** Why the last part of C2 asks for an ordered store: on [demo],
    [emplace(1, x0, ZERO)], a node above a child of smaller depth, and
    [conjoin(x0, not x1)] are two references of one bound store that read
    the same under every assignment. *)
Example emplace_out_of_order_two_references :
  (letM a := emplace 1 (Ptr 1 0) ZERO in
   letM b := conjoin 2 (Ptr 1 0) (Ptr 1 1) [] in
   ret (a, b)) demo
  = Ok ((Ptr 1 2, Ptr 1 3),
        set_store 1 [Node 0 ZERO ONE; Node 1 ONE ZERO;
                     Node 1 (Ptr 1 0) ZERO; Node 0 ZERO (Ptr 1 1)] demo) ∧
  Ptr 1 2 ≠ Ptr 1 3 ∧
  equiv (set_store 1 [Node 0 ZERO ONE; Node 1 ONE ZERO;
                      Node 1 (Ptr 1 0) ZERO; Node 0 ZERO (Ptr 1 1)] demo)
        (Ptr 1 2) (Ptr 1 3).
Proof.
  split_and!; [reflexivity|discriminate|].
  apply equiv_intro. intros env. exists (env 0%N && negb (env 1%N)).
  split.
  - eapply eval_Ptr; [reflexivity|]. simpl.
    destruct (env 1%N) eqn:H1.
    + rewrite andb_false_r. constructor.
    + rewrite andb_true_r. eapply eval_Ptr; [reflexivity|]. simpl.
      destruct (env 0%N); constructor.
  - eapply eval_Ptr; [reflexivity|]. simpl.
    destruct (env 0%N) eqn:H0; [|constructor]. simpl.
    eapply eval_Ptr; [reflexivity|]. simpl.
    destruct (env 1%N); constructor.
Qed.

(** C2, amended.  A call of [emplace] repeated in any later memory of the
    same binding returns the identical reference and inserts nothing; two
    calls whose fields differ return distinct references when neither has
    equal children; and in a session, that is when the bound store holds no
    node twice, no node with equal children, and only nodes whose children
    are sentinels or earlier nodes of that same store testing a later
    variable, two references into the store (or sentinels) read the same
    under every assignment iff they are the same reference. *)
Theorem emplace_canonical :
  (∀ d l r st v st1 st2,
     emplace d l r st = Ok (v, st1) →
     s_factors st2 = s_factors st →
     (∀ sid, s_factors st = Some sid →
             store_of st1 sid `prefix_of` store_of st2 sid) →
     emplace d l r st2 = Ok (v, st2)) ∧
  (∀ d1 l1 r1 d2 l2 r2 st v1 st1 v2 st2,
     l1 ≠ r1 → l2 ≠ r2 →
     Node d1 l1 r1 ≠ Node d2 l2 r2 →
     emplace d1 l1 r1 st = Ok (v1, st1) →
     emplace d2 l2 r2 st1 = Ok (v2, st2) →
     v1 ≠ v2) ∧
  (∀ st sid x y,
     session st sid →
     member st sid x = true → member st sid y = true →
     (equiv st x y ↔ x = y)).
Proof.
  split_and!.
  - apply emplace_again.
  - intros d1 l1 r1 d2 l2 r2 st v1 st1 v2 st2 Hne1 Hne2 Hn He1 He2 ->.
    pose proof (emplace_grows _ _ _ _ _ _ He1) as Hg1.
    pose proof (emplace_grows _ _ _ _ _ _ He2) as Hg2.
    apply emplace_Ok in He1
      as [(? & _)|(_ & s1 & k1 & Hb1 & -> & Hn1 & _)]; [done|].
    apply emplace_Ok in He2
      as [(? & _)|(_ & s2 & k2 & Hb2 & [= <- <-] & Hn2 & _)]; [done|].
    apply Hn.
    pose proof (grows_node_at st1 st2 (Ptr s1 k1) _ Hg2 Hn1) as Hn1'.
    simpl in Hn1'. congruence.
  - intros st sid x y Hs Hx Hy. split; [|by intros ->].
    by apply (session_canonical st sid Hs (rank x + rank y)).
Qed.

Lemma emplace_canonical_witness :
  (emplace 0 ZERO ONE demo = Ok (Ptr 1 0, demo) ∧
   emplace 1 ONE ZERO demo = Ok (Ptr 1 1, demo) ∧
   ZERO ≠ ONE ∧ ONE ≠ ZERO ∧ Node 0 ZERO ONE ≠ Node 1 ONE ZERO ∧
   session demo 1 ∧
   member demo 1 (Ptr 1 0) = true ∧ member demo 1 (Ptr 1 1) = true) ∧
  emplace 0 ZERO ONE demo = Ok (Ptr 1 0, demo) ∧
  Ptr 1 0 ≠ Ptr 1 1 ∧
  (equiv demo (Ptr 1 0) (Ptr 1 1) ↔ Ptr 1 0 = Ptr 1 1).
Proof.
  split; [|split; [|split]].
  - split_and!; try reflexivity; try discriminate. split; reflexivity.
  - apply (proj1 emplace_canonical 0%N ZERO ONE demo (Ptr 1 0) demo demo);
      [reflexivity|reflexivity|]. intros sid _. reflexivity.
  - apply (proj1 (proj2 emplace_canonical)
             0%N ZERO ONE 1%N ONE ZERO demo (Ptr 1 0) demo (Ptr 1 1) demo);
      [discriminate|discriminate|discriminate|reflexivity|reflexivity].
  - apply (proj2 (proj2 emplace_canonical) demo 1 (Ptr 1 0) (Ptr 1 1));
      [split; reflexivity|reflexivity|reflexivity].
Defined.

(** C3.  [emplace(d, c, c)] returns [c] and changes nothing; every
    primitive keeps the property that no stored node has equal children;
    hence no memory reachable from empty stores through [bind], [emplace],
    [literal], [invert] and [join] holds such a node. *)
Theorem reduction_invariant :
  (∀ d c st, emplace d c c st = Ok (c, st)) ∧
  (∀ fuel c st r st',
     reduced st → exec fuel c st = Ok (r, st') → reduced st') ∧
  (∀ st, reachable st → reduced st).
Proof.
  split_and!.
  - intros d c st. unfold emplace. by rewrite decide_True.
  - intros fuel c st r st' Hred Hrun.
    by eapply exec_stable; [apply reduced_stable| |].
  - apply reachable_reduced.
Qed.

Lemma reduction_invariant_witness :
  reachable demo ∧ reduced demo ∧
  emplace 3 (Ptr 1 0) (Ptr 1 0) demo = Ok (Ptr 1 0, demo) ∧
  ∃ r st', exec 2 (Join ZERO ONE (Ptr 1 0) (Ptr 1 1) []) demo = Ok (r, st') ∧
           reduced st'.
Proof.
  assert (reduced demo) as Hred.
  { apply (proj2 (proj2 reduction_invariant) demo). exact demo_reachable. }
  split; [exact demo_reachable|]. split; [exact Hred|].
  split; [apply (proj1 reduction_invariant)|].
  eexists. eexists. split; [reflexivity|].
  apply (proj1 (proj2 reduction_invariant) 2
           (Join ZERO ONE (Ptr 1 0) (Ptr 1 1) []) demo (Ptr 1 2) _ Hred).
  reflexivity.
Defined.


(** Why the second part of C4 asks for a closed store: a node stored in
    the bound store 1 with a child in store 2 is complemented twice under
    the one binding, and what comes back is another node of store 1. *)
Example invert_twice_open_store :
  (letM _ := bind (Some 2) in
   letM a := literal 1 true in
   letM _ := bind (Some 1) in
   letM x := literal 0 true in
   letM n := conjoin 3 x a [] in
   letM m := invert 3 n in
   letM k := invert 3 m in
   ret (a, n, m, k)) fresh
  = Ok ((Ptr 2 0, Ptr 1 1, Ptr 1 3, Ptr 1 5),
        set_store 1 [Node 0 ZERO ONE; Node 0 ZERO (Ptr 2 0);
                     Node 1 ONE ZERO; Node 0 ONE (Ptr 1 2);
                     Node 1 ZERO ONE; Node 0 ZERO (Ptr 1 4)]
          (set_store 2 [Node 1 ZERO ONE] (set_factors (Some 1) fresh))) ∧
  Ptr 1 5 ≠ Ptr 1 1.
Proof. split; [reflexivity|discriminate]. Qed.



(** C5, as the claim states its second part: [conjoin(a, b, a)] constructs
    two caches, and the entry the first step memoised for the pair [a], [b]
    is not in the cache the second step worked on; a single shared cache
    holds the entries of both steps. *)
Lemma join_caches_not_shared :
  ∃ c1 c2 c st',
    join_caches 2 ONE ZERO (Ptr 1 0) (Ptr 1 1) [Ptr 1 0] demo
      = Ok ((Ptr 1 2, [c1; c2]), st') ∧
    c1 !! join_key (Ptr 1 0) (Ptr 1 1) = Some (Ptr 1 2) ∧
    c2 !! join_key (Ptr 1 0) (Ptr 1 1) = None ∧
    c2 !! join_key (Ptr 1 2) (Ptr 1 0) = Some (Ptr 1 2) ∧
    join_shared 2 ONE ZERO (Ptr 1 0) (Ptr 1 1) [Ptr 1 0] demo
      = Ok ((Ptr 1 2, c), st') ∧
    c !! join_key (Ptr 1 0) (Ptr 1 1) = Some (Ptr 1 2) ∧
    c !! join_key (Ptr 1 2) (Ptr 1 0) = Some (Ptr 1 2).
Proof.
  do 4 eexists. split_and!; [reflexivity|reflexivity..].
Qed.

(** C5, amended.  The variadic [join] is the left fold of pairwise joins
    over its operands (combine [x] and [y], then the result with [z], and so
    on), and every pairwise step runs on a fresh, empty cache of its own:
    the call constructs as many caches as it has pairwise steps. *)
Theorem join_left_fold fuel i a x y rest st :
  join fuel i a x y rest st = join_fold fuel i a x (y :: rest) st ∧
  (letM (r, _) := join_caches fuel i a x y rest in ret r) st
    = join fuel i a x y rest st ∧
  (letM (_, cs) := join_caches fuel i a x y rest in ret (length cs)) st
    = (letM _ := join fuel i a x y rest in ret (S (length rest))) st.
Proof.
  split_and!.
  - apply join_is_fold.
  - apply join_caches_result.
  - apply join_caches_count.
Qed.

(** C6.  With a store bound, [literal(i, true)] returns a reference to a
    node of depth [i] with negative child [ZERO] and positive child [ONE],
    [literal(i, false)] one with negative child [ONE] and positive child
    [ZERO]; the node lives in the bound store, and any later call with the
    same index and sign under the same binding returns the same reference
    and inserts nothing. *)
Theorem literal_encoding i s st sid :
  s_factors st = Some sid →
  ∃ k st',
    literal i s st = Ok (Ptr sid k, st') ∧
    node_at st' (Ptr sid k)
      = Some (if s then Node i ZERO ONE else Node i ONE ZERO) ∧
    ∀ st'',
      s_factors st'' = Some sid →
      store_of st' sid `prefix_of` store_of st'' sid →
      literal i s st'' = Ok (Ptr sid k, st'').
Proof.
  intros Hb. unfold literal.
  destruct (emplace_total i (if negb s then ONE else ZERO)
              (if s then ONE else ZERO) st sid Hb) as (v & st' & He).
  pose proof He as He'.
  apply emplace_Ok in He' as [(Hbad & _)|(_ & sid' & k & Hb' & -> & Hn & _)];
    [by destruct s|].
  assert (sid' = sid) as -> by congruence.
  exists k, st'. split_and!; [done|by destruct s|].
  intros st'' Hb'' Hpre.
  eapply emplace_again; [exact He|congruence|].
  intros sid' Hsid'. by assert (sid' = sid) as -> by congruence.
Qed.

Lemma literal_encoding_witness :
  s_factors demo = Some 1 ∧
  ∃ k st',
    literal 1 false demo = Ok (Ptr 1 k, st') ∧
    node_at st' (Ptr 1 k) = Some (Node 1 ONE ZERO) ∧
    ∀ st'',
      s_factors st'' = Some 1 →
      store_of st' 1 `prefix_of` store_of st'' 1 →
      literal 1 false st'' = Ok (Ptr 1 k, st'').
Proof.
  split; [reflexivity|].
  apply (literal_encoding 1 false demo 1). reflexivity.
Defined.

(** C7.  For every reference [n] the four identity and annihilator laws
    hold by reference, in any memory, with no store bound, with no fuel and
    leaving the cache and the memory as they were: the short-circuits come
    before any recursion, dereference or store access. *)
Theorem join_identity_annihilator fuel (c : gmap (gset ref) ref) n st :
  (disjoin fuel n ZERO [] st = Ok (n, st) ∧
   disjoin fuel n ONE [] st = Ok (ONE, st) ∧
   conjoin fuel n ONE [] st = Ok (n, st) ∧
   conjoin fuel n ZERO [] st = Ok (ZERO, st)) ∧
  (join_cached fuel c ZERO ONE n ZERO st = Ok ((n, c), st) ∧
   join_cached fuel c ZERO ONE n ONE st = Ok ((ONE, c), st) ∧
   join_cached fuel c ONE ZERO n ONE st = Ok ((n, c), st) ∧
   join_cached fuel c ONE ZERO n ZERO st = Ok ((ZERO, c), st)).
Proof.
  assert (∀ c', join_cached fuel c' ZERO ONE n ZERO st = Ok ((n, c'), st) ∧
   join_cached fuel c' ZERO ONE n ONE st = Ok ((ONE, c'), st) ∧
   join_cached fuel c' ONE ZERO n ONE st = Ok ((n, c'), st) ∧
   join_cached fuel c' ONE ZERO n ZERO st = Ok ((ZERO, c'), st)) as Hc.
  { intros c'. rewrite !join_cached_unfold.
    split_and!; repeat case_decide; simplify_eq; try done; naive_solver. }
  split; [|apply Hc].
  unfold disjoin, conjoin. cbn [join]. unfold bindM.
  destruct (Hc ∅) as (-> & -> & -> & ->). done.
Qed.






(** C10.  [emplace(d, c, c)] returns [c] and leaves the memory alone, in
    every memory; in particular when [s_factors] is [nullptr].  The test
    on the children comes before the store access. *)
Theorem emplace_equal_children_unbound d c :
  (∀ st, emplace d c c st = Ok (c, st)) ∧
  (∀ z o m,
     emplace d c c {| zero_node := z; one_node := o;
                      s_factors := None; stores := m |}
     = Ok (c, {| zero_node := z; one_node := o;
                 s_factors := None; stores := m |})).
Proof.
  assert (∀ st, emplace d c c st = Ok (c, st)) as H.
  { intros st. unfold emplace. by rewrite decide_True. }
  split; [done|]. intros z o m. apply H.
Qed.

(** * Part V: further properties of the code *)

(** ** The utility functions *)

Lemma filter_fold_elem {T : Type} `{Countable T} (q : T → bool) (l : list T) :
  ∀ (acc : gset T) x,
    x ∈ foldl (λ r y, if q y then {[y]} ∪ r else r) acc l ↔
    x ∈ acc ∨ (x ∈ l ∧ q x = true).
Proof.
  induction l as [|y l IH]; intros acc x; simpl.
  - rewrite elem_of_nil. naive_solver.
  - rewrite IH, elem_of_cons. destruct (q y) eqn:Hy.
    + rewrite elem_of_union, elem_of_singleton. split.
      * intros [[->|?]|[? ?]]; auto.
      * intros [?|[[->|?] ?]]; auto.
    + split.
      * intros [?|[? ?]]; auto.
      * intros [?|[[->|?] ?]]; [auto|congruence|auto].
Qed.

Lemma elem_of_filter_utility {T : Type} `{Countable T}
    (s : gset T) (q : T → bool) x :
  x ∈ utility.filter s q ↔ x ∈ s ∧ q x = true.
Proof.
  unfold utility.filter. rewrite filter_fold_elem, elem_of_elements.
  set_solver.
Qed.

Lemma cover_inner_lookup {VALUE KEY : Type} `{Countable VALUE} `{Countable KEY}
    (v : VALUE) (ks : list KEY) :
  ∀ (res : gmap KEY (gset VALUE)) k,
    foldl (λ r l_key, <[l_key := {[v]} ∪ default ∅ (r !! l_key)]> r) res ks
      !! k
    = if decide (k ∈ ks)
      then Some ({[v]} ∪ default ∅ (res !! k))
      else res !! k.
Proof.
  induction ks as [|k0 ks IH]; intros res k; cbn [foldl].
  - rewrite decide_False; [done|]. apply not_elem_of_nil.
  - rewrite IH. destruct (decide (k = k0)) as [->|Hne].
    + rewrite lookup_insert_eq. simpl.
      rewrite (decide_True (P := k0 ∈ k0 :: ks)) by apply list_elem_of_here.
      case_decide; f_equal; set_solver.
    + rewrite lookup_insert_ne by done.
      destruct (decide (k ∈ ks)) as [Hin|Hnin].
      * by rewrite decide_True by (by apply list_elem_of_further).
      * rewrite decide_False; [done|]. rewrite elem_of_cons. naive_solver.
Qed.

Lemma cover_inner_elem {VALUE KEY : Type} `{Countable VALUE} `{Countable KEY}
    (v : VALUE) (ks : list KEY) (res : gmap KEY (gset VALUE)) k :
  let inner :=
    foldl (λ r l_key, <[l_key := {[v]} ∪ default ∅ (r !! l_key)]> r) res ks in
  (∀ w, w ∈ default ∅ (inner !! k) ↔
        w ∈ default ∅ (res !! k) ∨ (w = v ∧ k ∈ ks)) ∧
  (is_Some (inner !! k) ↔ is_Some (res !! k) ∨ k ∈ ks).
Proof.
  cbv zeta. rewrite cover_inner_lookup.
  destruct (decide (k ∈ ks)) as [Hk|Hk]; split.
  - intros w. simpl. rewrite elem_of_union, elem_of_singleton.
    naive_solver.
  - split; [by right|by eauto].
  - intros w. naive_solver.
  - naive_solver.
Qed.

Lemma cover_outer_lookup {VALUE KEY : Type} `{Countable VALUE} `{Countable KEY}
    (g : VALUE → gset KEY) (vs : list VALUE) :
  ∀ (res : gmap KEY (gset VALUE)) k,
    let out :=
      foldl (λ l_result l_value,
               foldl (λ r l_key,
                        <[l_key := {[l_value]} ∪ default ∅ (r !! l_key)]> r)
                     l_result (elements (g l_value)))
            res vs in
    (∀ w, w ∈ default ∅ (out !! k) ↔
          w ∈ default ∅ (res !! k) ∨ (w ∈ vs ∧ k ∈ g w)) ∧
    (is_Some (out !! k) ↔ is_Some (res !! k) ∨ ∃ w, w ∈ vs ∧ k ∈ g w).
Proof.
  induction vs as [|v vs IH]; intros res k; cbn [foldl]; cbv zeta.
  - split; [intros w|].
    + rewrite elem_of_nil. naive_solver.
    + split; [by left|]. intros [?|(w & Hw & _)]; [done|].
      by apply elem_of_nil in Hw.
  - destruct (IH (foldl (λ r l_key,
                    <[l_key := {[v]} ∪ default ∅ (r !! l_key)]> r)
                   res (elements (g v))) k) as [IH1 IH2].
    destruct (cover_inner_elem v (elements (g v)) res k) as [In1 In2].
    cbv zeta in IH1, IH2, In1, In2. split.
    + intros w. rewrite IH1, In1, elem_of_cons, elem_of_elements.
      naive_solver.
    + rewrite IH2, In2, elem_of_elements. split.
      * intros [[?|?]|(w & Hw & Hkw)]; [by left|right..].
        -- exists v. split; [apply list_elem_of_here|done].
        -- exists w. split; [by apply list_elem_of_further|done].
      * intros [?|(w & Hw & Hkw)]; [by left; left|].
        apply elem_of_cons in Hw as [->|Hw]; [by left; right|right; eauto].
Qed.

(** X17.  [filter] returns exactly the elements of its input that satisfy
    the query: nothing else gets in, nothing that qualifies is lost; so the
    result is a subset of the input and no larger, an empty input gives an
    empty result, and a query that holds everywhere gives the input back. *)
Theorem filter_exact {T : Type} `{Countable T} (s : gset T) (q : T → bool) :
  (∀ x, x ∈ utility.filter s q ↔ x ∈ s ∧ q x = true) ∧
  utility.filter s q ⊆ s ∧
  size (utility.filter s q) ≤ size s ∧
  utility.filter (∅ : gset T) q = ∅ ∧
  utility.filter s (λ _, true) = s ∧
  utility.filter s (λ _, false) = ∅.
Proof.
  assert (utility.filter s q ⊆ s) as Hsub.
  { intros x. rewrite elem_of_filter_utility. naive_solver. }
  split_and!.
  - intros x. apply elem_of_filter_utility.
  - done.
  - by apply subseteq_size.
  - apply set_eq. intros x. rewrite elem_of_filter_utility. set_solver.
  - apply set_eq. intros x. rewrite elem_of_filter_utility. naive_solver.
  - apply set_eq. intros x. rewrite elem_of_filter_utility. set_solver.
Qed.

(** X18.  Filtering twice is filtering once by the conjunction of the two
    queries, in either order. *)
Theorem filter_twice {T : Type} `{Countable T} (s : gset T) (p q : T → bool) :
  utility.filter (utility.filter s p) q = utility.filter s (λ x, p x && q x) ∧
  utility.filter (utility.filter s p) q = utility.filter (utility.filter s q) p.
Proof.
  split; apply set_eq; intros x; rewrite !elem_of_filter_utility;
    rewrite ?andb_true_iff; naive_solver.
Qed.

Lemma cover_lookup_elem {VALUE KEY : Type} `{Countable VALUE} `{Countable KEY}
    (s : gset VALUE) (g : VALUE → gset KEY) k w :
  w ∈ default ∅ (utility.cover s g !! k) ↔ w ∈ s ∧ k ∈ g w.
Proof.
  unfold utility.cover.
  destruct (cover_outer_lookup g (elements s) ∅ k) as [Hw _].
  cbv zeta in Hw. rewrite Hw, lookup_empty, elem_of_elements. simpl.
  set_solver.
Qed.

Lemma cover_lookup_is_Some {VALUE KEY : Type}
    `{Countable VALUE} `{Countable KEY}
    (s : gset VALUE) (g : VALUE → gset KEY) k :
  is_Some (utility.cover s g !! k) ↔ ∃ w, w ∈ s ∧ k ∈ g w.
Proof.
  unfold utility.cover.
  destruct (cover_outer_lookup g (elements s) ∅ k) as [_ Hs].
  cbv zeta in Hs. rewrite Hs, lookup_empty. split.
  - intros [[? [=]]|(w & Hw & ?)]. exists w. by rewrite <- elem_of_elements.
  - intros (w & Hw & ?). right. exists w. by rewrite elem_of_elements.
Qed.

Lemma cover_group_elem {VALUE KEY : Type} `{Countable VALUE} `{Countable KEY}
    (s : gset VALUE) (g : VALUE → gset KEY) k grp w :
  utility.cover s g !! k = Some grp → (w ∈ grp ↔ w ∈ s ∧ k ∈ g w).
Proof. intros Hgrp. by rewrite <- cover_lookup_elem, Hgrp. Qed.

(** X19.  The group [cover] files under key [k] holds exactly the input
    values whose grouper yields [k].  A key is present iff some input value
    yields it, so no group is empty and every group is a subset of the input;
    an empty input gives an empty map. *)
Theorem cover_groups {VALUE KEY : Type} `{Countable VALUE} `{Countable KEY}
    (s : gset VALUE) (g : VALUE → gset KEY) :
  (∀ k w, w ∈ default ∅ (utility.cover s g !! k) ↔ w ∈ s ∧ k ∈ g w) ∧
  (∀ k, is_Some (utility.cover s g !! k) ↔ ∃ w, w ∈ s ∧ k ∈ g w) ∧
  (∀ k grp, utility.cover s g !! k = Some grp →
            grp ≠ ∅ ∧ grp ⊆ s ∧ ∀ w, w ∈ grp ↔ w ∈ s ∧ k ∈ g w) ∧
  utility.cover (∅ : gset VALUE) g = ∅.
Proof.
  split_and!.
  - intros k w. apply cover_lookup_elem.
  - intros k. apply cover_lookup_is_Some.
  - intros k grp Hgrp.
    pose proof (λ w, cover_group_elem s g k grp w Hgrp) as Hg.
    split_and!; [|intros w; rewrite Hg; naive_solver|done].
    destruct (proj1 (cover_lookup_is_Some s g k)) as (w & Hw & Hkw);
      [by rewrite Hgrp|].
    intros ->. by apply (not_elem_of_empty (C := gset VALUE) w), Hg.
  - unfold utility.cover. by rewrite elements_empty.
Qed.

(** X20.  The groups of a [cover] together hold exactly the input values
    whose grouper yields at least one key: [cover] drops a value only when
    it has no key, and is a cover of the input when every value has one. *)
Theorem cover_union {VALUE KEY : Type} `{Countable VALUE} `{Countable KEY}
    (s : gset VALUE) (g : VALUE → gset KEY) w :
  (∃ k grp, utility.cover s g !! k = Some grp ∧ w ∈ grp) ↔
  w ∈ s ∧ g w ≠ ∅.
Proof.
  split.
  - intros (k & grp & Hk & Hw).
    apply (cover_group_elem s g k grp w Hk) in Hw as [Hs Hkw].
    split; [done|]. set_solver.
  - intros [Hs Hne].
    apply set_choose_L in Hne as [k Hk].
    destruct (proj2 (cover_lookup_is_Some s g k)) as [grp Hgrp]; [by eauto|].
    exists k, grp. split; [done|].
    by apply (cover_group_elem s g k grp w Hgrp).
Qed.

(** X21.  [partition] files every input value under the one key its
    partitioner gives it: the group under [k] is not empty and holds exactly
    the values mapped to [k], groups under different keys share no value, and
    every input value is found in the group of its own key. *)
Theorem partition_groups {VALUE KEY : Type} `{Countable VALUE} `{Countable KEY}
    (s : gset VALUE) (p : VALUE → KEY) :
  (∀ k grp, utility.partition s p !! k = Some grp →
            grp ≠ ∅ ∧ ∀ w, w ∈ grp ↔ w ∈ s ∧ p w = k) ∧
  (∀ k1 k2 g1 g2,
     utility.partition s p !! k1 = Some g1 →
     utility.partition s p !! k2 = Some g2 →
     k1 ≠ k2 → g1 ## g2) ∧
  (∀ w, w ∈ s →
        ∃ grp, utility.partition s p !! (p w) = Some grp ∧ w ∈ grp).
Proof.
  unfold utility.partition.
  assert (∀ k grp w,
    utility.cover s (λ a_value, {[p a_value]}) !! k = Some grp →
    (w ∈ grp ↔ w ∈ s ∧ p w = k)) as Hone.
  { intros k grp w Hk. rewrite (cover_group_elem _ _ k grp w Hk).
    rewrite elem_of_singleton. naive_solver. }
  split_and!.
  - intros k grp Hk. split; [|intros w; by apply Hone].
    destruct (proj1 (cover_lookup_is_Some s (λ a_value, {[p a_value]}) k))
      as (w & Hw & Hkw); [by rewrite Hk|].
    apply elem_of_singleton in Hkw.
    intros ->. apply (not_elem_of_empty (C := gset VALUE) w).
    apply (Hone k ∅ w Hk). done.
  - intros k1 k2 g1 g2 H1 H2 Hne w Hw1 Hw2.
    apply (Hone k1 g1 w H1) in Hw1 as [_ <-].
    apply (Hone k2 g2 w H2) in Hw2 as [_ <-]. done.
  - intros w Hw.
    destruct (proj2 (cover_lookup_is_Some s (λ a_value, {[p a_value]}) (p w)))
      as [grp Hk].
    { exists w. split; [done|]. by apply elem_of_singleton. }
    exists grp. split; [done|]. by apply (Hone (p w) grp w Hk).
Qed.

Example partition_by_remainder :
  utility.partition (list_to_set (seq 0 11) : gset nat) (λ n, n mod 3) !! 1
  = Some {[1; 4; 7; 10]}.
Proof. vm_compute. reflexivity. Qed.

Lemma cover_groups_witness :
  utility.cover ({[1; 2; 3]} : gset nat) (λ n, {[n; 2 * n]} : gset nat) !! 2
    = Some {[1; 2]} ∧
  (({[1; 2]} : gset nat) ≠ ∅ ∧ ({[1; 2]} : gset nat) ⊆ {[1; 2; 3]} ∧
   ∀ w, w ∈ ({[1; 2]} : gset nat) ↔
        w ∈ ({[1; 2; 3]} : gset nat) ∧ 2 ∈ ({[w; 2 * w]} : gset nat)).
Proof.
  split; [vm_compute; reflexivity|].
  apply (proj1 (proj2 (proj2
           (cover_groups ({[1; 2; 3]} : gset nat)
              (λ n, {[n; 2 * n]} : gset nat)))) 2 {[1; 2]}).
  vm_compute. reflexivity.
Defined.

Lemma partition_groups_witness :
  utility.partition (list_to_set (seq 0 11) : gset nat) (λ n, n mod 3) !! 1
    = Some {[1; 4; 7; 10]} ∧
  (({[1; 4; 7; 10]} : gset nat) ≠ ∅ ∧
   ∀ w, w ∈ ({[1; 4; 7; 10]} : gset nat) ↔
        w ∈ (list_to_set (seq 0 11) : gset nat) ∧ w mod 3 = 1).
Proof.
  split; [vm_compute; reflexivity|].
  apply (proj1 (partition_groups (list_to_set (seq 0 11) : gset nat)
                  (λ n, n mod 3)) 1 {[1; 4; 7; 10]}).
  vm_compute. reflexivity.
Defined.

(** ** The cache macro *)

(** X16.  A [CACHE] on a present key returns the stored value without
    evaluating the value expression (which may be one that would fail) and
    leaves cache and memory alone.  A [CACHE] on an absent key evaluates the
    expression once, returns its value and binds the key to it: any later
    [CACHE] on that key returns this value whatever expression it is given,
    the other keys are as the expression left them, and the cache has grown
    by exactly one entry when the expression did not bind the key itself. *)
Theorem CACHE_round_trip {K V : Type} `{Countable K}
    (cache : gmap K V) (key : K) (value : gmap K V → M (V * gmap K V)) st :
  (∀ v, cache !! key = Some v →
        CACHE cache key value st = Ok ((v, cache), st)) ∧
  (∀ v c st',
     cache !! key = None → value cache st = Ok ((v, c), st') →
     CACHE cache key value st = Ok ((v, <[key := v]> c), st') ∧
     (∀ value' st2,
        CACHE (<[key := v]> c) key value' st2
        = Ok ((v, <[key := v]> c), st2)) ∧
     (∀ k, k ≠ key → (<[key := v]> c) !! k = c !! k) ∧
     (c !! key = None → size (<[key := v]> c) = S (size c))) ∧
  (cache !! key = None →
   (∀ r, value cache st ≠ Ok r) → ∀ r, CACHE cache key value st ≠ Ok r).
Proof.
  split_and!.
  - intros v Hv. unfold CACHE. by rewrite Hv.
  - intros v c st' Hnone Hval. split_and!.
    + unfold CACHE, bindM. by rewrite Hnone, Hval.
    + intros value' st2. unfold CACHE. by rewrite lookup_insert_eq.
    + intros k Hk. by rewrite lookup_insert_ne.
    + intros Hc. by apply map_size_insert_None.
  - intros Hnone Hfail r. unfold CACHE, bindM. rewrite Hnone.
    destruct (value cache st) as [[[v c] st']| | |] eqn:Hv; try done.
    by destruct (Hfail (v, c, st')).
Qed.

Lemma CACHE_round_trip_witness :
  (({[0 := 10; 2 := 50]} : gmap nat nat) !! 1 = None ∧
   (λ c : gmap nat nat, ret (7, c)) {[0 := 10; 2 := 50]} fresh
   = Ok ((7, {[0 := 10; 2 := 50]}), fresh)) ∧
  CACHE ({[0 := 10; 2 := 50]} : gmap nat nat) 1 (λ c, ret (7, c)) fresh
  = Ok ((7, <[1 := 7]> {[0 := 10; 2 := 50]}), fresh) ∧
  (∀ value' st2,
     CACHE (<[1 := 7]> ({[0 := 10; 2 := 50]} : gmap nat nat)) 1 value' st2
     = Ok ((7, <[1 := 7]> {[0 := 10; 2 := 50]}), st2)) ∧
  (∀ k, k ≠ 1 →
     (<[1 := 7]> ({[0 := 10; 2 := 50]} : gmap nat nat)) !! k
     = ({[0 := 10; 2 := 50]} : gmap nat nat) !! k) ∧
  (({[0 := 10; 2 := 50]} : gmap nat nat) !! 1 = None →
   size (<[1 := 7]> ({[0 := 10; 2 := 50]} : gmap nat nat))
   = S (size ({[0 := 10; 2 := 50]} : gmap nat nat))).
Proof.
  split; [split; reflexivity|].
  apply (proj1 (proj2 (CACHE_round_trip
           ({[0 := 10; 2 := 50]} : gmap nat nat) 1 (λ c, ret (7, c)) fresh))
           7 {[0 := 10; 2 := 50]} fresh); reflexivity.
Defined.

(** ** [emplace], [bind] and [literal] *)

(** The fields read from a stored node of a session, emplaced again, give
    the node's own reference and change nothing. *)
Lemma emplace_stored st sid k n :
  session st sid → store_of st sid !! k = Some n →
  emplace (depth n) (negative n) (positive n) st = Ok (Ptr sid k, st).
Proof.
  intros Hs Hk. destruct (session_lookup _ _ _ _ Hs Hk) as (Hne & _ & _).
  destruct Hs as [Hb [Hnd _]%store_ok_spec].
  unfold emplace. rewrite decide_False by done. rewrite Hb. cbv zeta.
  assert (Node (depth n) (negative n) (positive n) = n) as -> by by destruct n.
  destruct (slot_of n (store_of st sid)) as [j|] eqn:Hj.
  - apply slot_of_Some in Hj. by rewrite (NoDup_lookup _ _ _ _ Hnd Hj Hk).
  - apply slot_of_None in Hj. destruct Hj. by eapply list_elem_of_lookup_2.
Qed.

(** X1.  With a store bound and two different children, [emplace] returns a
    pointer into the bound store that dereferences to exactly the three
    fields it was given; the store is left as it was when it already held
    that node and is extended by that one node otherwise. *)
Theorem emplace_then_deref d l r st sid :
  s_factors st = Some sid → l ≠ r →
  ∃ k st',
    emplace d l r st = Ok (Ptr sid k, st') ∧
    node_at st' (Ptr sid k) = Some (Node d l r) ∧
    ((Node d l r ∈ store_of st sid ∧ st' = st) ∨
     ((Node d l r ∉ store_of st sid) ∧ k = length (store_of st sid) ∧
      store_of st' sid = store_of st sid ++ [Node d l r])).
Proof.
  intros Hb Hne.
  destruct (emplace_total d l r st sid Hb) as (v & st' & He).
  pose proof He as He'.
  apply emplace_Ok in He'
    as [(? & _)|(_ & sid' & k & Hb' & -> & Hn & Hst)]; [done|].
  assert (sid' = sid) as -> by congruence.
  exists k, st'. split_and!; [done..|].
  destruct Hst as [->|(-> & Hnew & ->)].
  - left. split; [|done]. by eapply list_elem_of_lookup_2.
  - right. split_and!; [done..|].
    by rewrite store_of_set_store, decide_True.
Qed.

Lemma emplace_then_deref_witness :
  (s_factors demo = Some 1 ∧ ONE ≠ Ptr 1 0) ∧
  ∃ k st',
    emplace 0 ONE (Ptr 1 0) demo = Ok (Ptr 1 k, st') ∧
    node_at st' (Ptr 1 k) = Some (Node 0 ONE (Ptr 1 0)) ∧
    ((Node 0 ONE (Ptr 1 0) ∈ store_of demo 1 ∧ st' = demo) ∨
     ((Node 0 ONE (Ptr 1 0) ∉ store_of demo 1) ∧
      k = length (store_of demo 1) ∧
      store_of st' 1 = store_of demo 1 ++ [Node 0 ONE (Ptr 1 0)])).
Proof.
  split; [split; [reflexivity|discriminate]|].
  apply (emplace_then_deref 0 ONE (Ptr 1 0) demo 1); [reflexivity|discriminate].
Defined.



(** X3.  Binding a store and then binding what [bind] returned restores the
    memory exactly; the second [bind] returns the store that was bound in
    between. *)
Theorem bind_restore p st :
  (letM old := bind p in
   letM q := bind old in
   ret (old, q)) st = Ok ((s_factors st, p), st).
Proof. by destruct st. Qed.

(** X4.  Whatever a primitive is called with, when it returns, every node
    that existed still exists with the same fields, every reference reads as
    it did under every assignment, well-formed references stay well-formed,
    and no store has shrunk: the primitives only ever add nodes. *)
Theorem primitives_only_add fuel c st r st' :
  exec fuel c st = Ok (r, st') →
  (∀ x n, node_at st x = Some n → node_at st' x = Some n) ∧
  (∀ env x b, eval st env x b → eval st' env x b) ∧
  (∀ h x, wf_ref h st x = true → wf_ref h st' x = true) ∧
  (∀ sid, length (store_of st sid) ≤ length (store_of st' sid)).
Proof.
  intros Hrun. pose proof (exec_grows _ _ _ _ _ Hrun) as Hg.
  split_and!.
  - intros x n. by apply grows_node_at.
  - intros env x b. by apply eval_grows.
  - intros h x. by apply wf_ref_grows.
  - intros sid. apply prefix_length, Hg.
Qed.

Lemma primitives_only_add_witness :
  exec 2 (Join ZERO ONE (Ptr 1 0) (Ptr 1 1) []) demo
    = Ok (Ptr 1 2, set_store 1 (store_of demo 1 ++ [Node 0 (Ptr 1 1) ONE]) demo)
  ∧
  ((∀ x n, node_at demo x = Some n →
      node_at (set_store 1 (store_of demo 1 ++ [Node 0 (Ptr 1 1) ONE]) demo) x
      = Some n) ∧
   (∀ env x b, eval demo env x b →
      eval (set_store 1 (store_of demo 1 ++ [Node 0 (Ptr 1 1) ONE]) demo)
        env x b) ∧
   (∀ h x, wf_ref h demo x = true →
      wf_ref h (set_store 1 (store_of demo 1 ++ [Node 0 (Ptr 1 1) ONE]) demo) x
      = true) ∧
   (∀ sid, length (store_of demo sid) ≤
      length (store_of
        (set_store 1 (store_of demo 1 ++ [Node 0 (Ptr 1 1) ONE]) demo) sid))).
Proof.
  split; [reflexivity|].
  apply (primitives_only_add 2 (Join ZERO ONE (Ptr 1 0) (Ptr 1 1) []) demo
           (Ptr 1 2)).
  reflexivity.
Defined.

(** ** [invert] and [join] on diagrams of any store *)

(** X5.  With a store bound, [invert] applied to a well-formed reference of
    any store, bound or not, returns a well-formed reference that reads as the
    complement under every assignment; complementing that one again gives a
    reference that reads as the original does (it is the original reference
    only within one session). *)
Theorem invert_denotes_complement st sid x h fuel :
  s_factors st = Some sid → wf_ref h st x = true → h ≤ fuel →
  ∃ r st' h',
    invert fuel x st = Ok (r, st') ∧
    wf_ref h' st' r = true ∧
    (∀ env, ∃ b, eval st env x b ∧ eval st' env r (negb b)) ∧
    ∀ fuel2, h' ≤ fuel2 →
      ∃ r2 st2,
        invert fuel2 r st' = Ok (r2, st2) ∧
        ∀ env, ∃ b, eval st env x b ∧ eval st2 env r2 b.
Proof.
  intros Hb Hw Hf.
  destruct (invert_cached_correct fuel ∅ x st sid h Hb Hw Hf
              (inv_cache_ok_empty st))
    as (r & c & st' & Hrun & Hg & [h' Hw'] & _ & Hsem).
  exists r, st', h'. split_and!.
  - unfold invert, bindM. by rewrite Hrun.
  - done.
  - intros env. destruct (wf_ref_eval h st env x Hw) as [b Hx].
    exists b. split; [done|]. by apply Hsem.
  - intros fuel2 Hf2.
    destruct (invert_cached_correct fuel2 ∅ r st' sid h') as
      (r2 & c2 & st2 & Hrun2 & Hg2 & _ & _ & Hsem2);
      [by rewrite (grows_factors _ _ Hg)|done|done|apply inv_cache_ok_empty|].
    exists r2, st2. split.
    + unfold invert, bindM. by rewrite Hrun2.
    + intros env. destruct (wf_ref_eval h st env x Hw) as [b Hx].
      exists b. split; [done|].
      rewrite <- (negb_involutive b). by apply Hsem2, Hsem.
Qed.

Lemma invert_denotes_complement_witness :
  (s_factors two_stores = Some 2 ∧ wf_ref 1 two_stores (Ptr 1 0) = true ∧
   1 ≤ 1) ∧
  ∃ r st' h',
    invert 1 (Ptr 1 0) two_stores = Ok (r, st') ∧
    wf_ref h' st' r = true ∧
    (∀ env, ∃ b, eval two_stores env (Ptr 1 0) b ∧ eval st' env r (negb b)) ∧
    ∀ fuel2, h' ≤ fuel2 →
      ∃ r2 st2,
        invert fuel2 r st' = Ok (r2, st2) ∧
        ∀ env, ∃ b, eval two_stores env (Ptr 1 0) b ∧ eval st2 env r2 b.
Proof.
  split; [split_and!; [reflexivity|reflexivity|lia]|].
  apply (invert_denotes_complement two_stores 2 (Ptr 1 0) 1 1);
    [reflexivity|reflexivity|lia].
Defined.



(** ** Literals *)

Lemma invert_cached_sentinel fuel (c : gmap ref ref) st :
  invert_cached fuel c ZERO st = Ok ((ONE, c), st) ∧
  invert_cached fuel c ONE st = Ok ((ZERO, c), st).
Proof. by destruct fuel. Qed.

(** X7.  Under one binding, the complement of [literal(i, s)] is the very
    reference [literal(i, !s)] returns. *)
Theorem invert_literal i s st sid fuel :
  s_factors st = Some sid → 1 ≤ fuel →
  ∃ a b st1 st2,
    literal i s st = Ok (a, st1) ∧
    invert fuel a st1 = Ok (b, st2) ∧
    literal i (negb s) st2 = Ok (b, st2).
Proof.
  intros Hb Hf. destruct fuel as [|fuel]; [lia|].
  destruct (emplace_total i (if negb s then ONE else ZERO)
              (if s then ONE else ZERO) st sid Hb) as (a & st1 & Ha).
  pose proof (emplace_grows _ _ _ _ _ _ Ha) as Hg1.
  pose proof Ha as Ha'.
  apply emplace_Ok in Ha'
    as [(? & _)|(_ & sid' & k & _ & -> & Hn & _)]; [by destruct s|].
  assert (s_factors st1 = Some sid) as Hb1 by (by rewrite (grows_factors _ _ Hg1)).
  destruct (emplace_total i (if negb (negb s) then ONE else ZERO)
              (if negb s then ONE else ZERO) st1 sid Hb1) as (b & st2 & Hbe).
  exists (Ptr sid' k), b, st1, st2. split_and!.
  - exact Ha.
  - unfold invert. rewrite invert_cached_unfold.
    rewrite !decide_False by done. rewrite lookup_empty.
    unfold bindM at 1 2, deref. cbn [node_at]. rewrite Hn.
    cbn [depth negative positive].
    destruct (invert_cached_sentinel fuel ∅ st1) as [Hz Ho].
    destruct s; simpl in *; unfold bindM, ret; rewrite ?Hz, ?Ho; simpl;
      rewrite ?Hz, ?Ho; simpl; by rewrite Hbe.
  - unfold literal. eapply emplace_again; [exact Hbe| |intros; reflexivity].
    apply (emplace_grows _ _ _ _ _ _ Hbe).
Qed.

Lemma invert_literal_witness :
  (s_factors demo = Some 1 ∧ 1 ≤ 1) ∧
  ∃ a b st1 st2,
    literal 2 true demo = Ok (a, st1) ∧
    invert 1 a st1 = Ok (b, st2) ∧
    literal 2 false st2 = Ok (b, st2).
Proof.
  split; [split; [reflexivity|lia]|].
  apply (invert_literal 2 true demo 1 1); [reflexivity|lia].
Defined.

(** X15.  Under one binding, two calls of [literal] return the same
    reference exactly when they were given the same index and the same
    sign. *)
Theorem literal_injective i s j t st sid :
  s_factors st = Some sid →
  ∃ a b st1 st2,
    literal i s st = Ok (a, st1) ∧
    literal j t st1 = Ok (b, st2) ∧
    (a = b ↔ i = j ∧ s = t).
Proof.
  intros Hb.
  destruct (emplace_total i (if negb s then ONE else ZERO)
              (if s then ONE else ZERO) st sid Hb) as (a & st1 & Ha).
  pose proof (emplace_grows _ _ _ _ _ _ Ha) as Hg1.
  assert (s_factors st1 = Some sid) as Hb1 by (by rewrite (grows_factors _ _ Hg1)).
  destruct (emplace_total j (if negb t then ONE else ZERO)
              (if t then ONE else ZERO) st1 sid Hb1) as (b & st2 & Hbe).
  pose proof (emplace_grows _ _ _ _ _ _ Hbe) as Hg2.
  exists a, b, st1, st2. split_and!; [done..|].
  split.
  - intros <-.
    apply emplace_Ok in Ha
      as [(? & _)|(_ & sa & ka & _ & -> & Hna & _)]; [by destruct s|].
    apply emplace_Ok in Hbe
      as [(? & _)|(_ & sb & kb & _ & [= <- <-] & Hnb & _)]; [by destruct t|].
    pose proof (grows_node_at st1 st2 (Ptr sa ka) _ Hg2 Hna) as Hna'.
    simpl in Hna'. rewrite Hna' in Hnb. injection Hnb as -> Hl Hr.
    split; [done|]. by destruct s, t.
  - intros [-> ->].
    assert (literal j t st1 = Ok (a, st1)) as Hagain.
    { unfold literal. eapply emplace_again; [exact Ha| |intros; reflexivity].
      apply Hg1. }
    unfold literal in Hagain. rewrite Hagain in Hbe. by injection Hbe.
Qed.

Lemma literal_injective_witness :
  s_factors demo = Some 1 ∧
  ∃ a b st1 st2,
    literal 0 true demo = Ok (a, st1) ∧
    literal 0 false st1 = Ok (b, st2) ∧
    (a = b ↔ 0%N = 0%N ∧ true = false).
Proof.
  split; [reflexivity|].
  apply (literal_injective 0 true 0 false demo 1). reflexivity.
Defined.

(** ** [invert] with no store bound *)

Lemma invert_cached_unbound fuel :
  ∀ h s k st,
    s_factors st = None → reduced st →
    wf_ref h st (Ptr s k) = true → h ≤ fuel →
    invert_cached fuel ∅ (Ptr s k) st = NoStore.
Proof.
  induction fuel as [|fuel IH]; intros h s k st Hb Hred Hw Hf.
  { destruct h; [done|lia]. }
  apply wf_ref_Ptr in Hw as (h' & n & -> & Hn & Hw1 & Hw2).
  pose proof (Hred s k n Hn) as Hne.
  rewrite invert_cached_unfold, !decide_False by done.
  rewrite lookup_empty. unfold bindM at 1, deref. rewrite Hn.
  destruct (invert_cached_sentinel fuel ∅ st) as [Hz Ho].
  assert (∀ l r, l ≠ r → emplace (depth n) l r st = NoStore) as Hfatal.
  { intros l r Hlr. by apply emplace_NoStore. }
  destruct (negative n) as [| |s1 k1] eqn:Hneg;
    [| |unfold bindM; by rewrite (IH h' s1 k1 st Hb Hred Hw1 ltac:(lia))].
  all: destruct (positive n) as [| |s2 k2] eqn:Hpos; try done.
  all: unfold bindM at 1; rewrite ?Hz, ?Ho; cbv beta iota.
  all: unfold bindM at 1; rewrite ?Hz, ?Ho; cbv beta iota.
  all: try (by rewrite (IH h' s2 k2 st Hb Hred Hw2 ltac:(lia))).
  all: unfold bindM; by rewrite Hfatal.
Qed.

(** X8.  With no store bound, [invert] succeeds on the two sentinels and is
    fatal on every well-formed node of a memory whose stored nodes all have
    two different children: the recursion always reaches an [emplace] that
    needs the store. *)
Theorem invert_unbound_fatal st h s k fuel :
  s_factors st = None → reduced st →
  wf_ref h st (Ptr s k) = true → h ≤ fuel →
  invert fuel (Ptr s k) st = NoStore ∧
  invert fuel ZERO st = Ok (ONE, st) ∧
  invert fuel ONE st = Ok (ZERO, st).
Proof.
  intros Hb Hred Hw Hf.
  destruct (invert_cached_sentinel fuel ∅ st) as [Hz Ho].
  unfold invert, bindM.
  rewrite (invert_cached_unbound fuel h s k st Hb Hred Hw Hf), Hz, Ho.
  done.
Qed.

Lemma invert_unbound_fatal_witness :
  (s_factors (set_factors None demo) = None ∧
   reduced (set_factors None demo) ∧
   wf_ref 1 (set_factors None demo) (Ptr 1 1) = true ∧ 1 ≤ 1) ∧
  invert 1 (Ptr 1 1) (set_factors None demo) = NoStore ∧
  invert 1 ZERO (set_factors None demo) = Ok (ONE, set_factors None demo) ∧
  invert 1 ONE (set_factors None demo) = Ok (ZERO, set_factors None demo).
Proof.
  assert (reduced (set_factors None demo)) as Hred.
  { apply reachable_reduced, reach_bind, demo_reachable. }
  split; [split_and!; [reflexivity|exact Hred|reflexivity|lia]|].
  apply (invert_unbound_fatal (set_factors None demo) 1 1 1 1);
    [reflexivity|exact Hred|reflexivity|lia].
Defined.

(** ** The variable order *)

(** X10.  In a session (the bound store is closed and ordered, see
    [session]), when both operands are sentinels or test variables
    after [d], so does what [conjoin] and [disjoin] return; and so does what
    [invert] returns when its operand does.  No operation brings a variable
    to the top that comes before the top variables of its operands. *)
Theorem order_preserved st sid x y d fuel :
  session st sid →
  member st sid x = true → member st sid y = true →
  rank x + rank y ≤ fuel →
  above st d x → above st d y →
  (∃ r st', conjoin fuel x y [] st = Ok (r, st') ∧ above st' d r) ∧
  (∃ r st', disjoin fuel x y [] st = Ok (r, st') ∧ above st' d r) ∧
  (∃ r st', invert fuel x st = Ok (r, st') ∧ above st' d r).
Proof.
  intros Hs Hx Hy Hf Hax Hay.
  assert (∀ i, ∃ r st',
    join fuel (terminal i) (terminal (negb i)) x y [] st = Ok (r, st') ∧
    above st' d r) as Hjoin.
  { intros i.
    destruct (join_cached_session_total st sid i x y fuel Hs Hx Hy)
      as (r & c & st' & Hrun & _ & _ & _ & _ & Ha); [lia|].
    exists r, st'. split; [|by apply Ha].
    cbn [join]. unfold bindM. by rewrite Hrun. }
  split_and!; [apply (Hjoin true)|apply (Hjoin false)|].
  destruct (invert_session st sid x fuel Hs Hx) as
    (r & st' & Hrun & _ & _ & _ & _ & Ha); [lia|].
  exists r, st'. split; [done|by apply Ha].
Qed.

Lemma order_preserved_witness :
  (session (set_store 1 [Node 1 ZERO ONE; Node 2 ZERO ONE] demo) 1 ∧
   member (set_store 1 [Node 1 ZERO ONE; Node 2 ZERO ONE] demo) 1 (Ptr 1 0)
     = true ∧
   member (set_store 1 [Node 1 ZERO ONE; Node 2 ZERO ONE] demo) 1 (Ptr 1 1)
     = true ∧
   rank (Ptr 1 0) + rank (Ptr 1 1) ≤ 3 ∧
   above (set_store 1 [Node 1 ZERO ONE; Node 2 ZERO ONE] demo) 0 (Ptr 1 0) ∧
   above (set_store 1 [Node 1 ZERO ONE; Node 2 ZERO ONE] demo) 0 (Ptr 1 1)) ∧
  (∃ r st',
     conjoin 3 (Ptr 1 0) (Ptr 1 1) []
       (set_store 1 [Node 1 ZERO ONE; Node 2 ZERO ONE] demo) = Ok (r, st') ∧
     above st' 0 r) ∧
  (∃ r st',
     disjoin 3 (Ptr 1 0) (Ptr 1 1) []
       (set_store 1 [Node 1 ZERO ONE; Node 2 ZERO ONE] demo) = Ok (r, st') ∧
     above st' 0 r) ∧
  (∃ r st',
     invert 3 (Ptr 1 0)
       (set_store 1 [Node 1 ZERO ONE; Node 2 ZERO ONE] demo) = Ok (r, st') ∧
     above st' 0 r).
Proof.
  assert (above (set_store 1 [Node 1 ZERO ONE; Node 2 ZERO ONE] demo) 0
            (Ptr 1 0)) as Hx.
  { exists (Node 1 ZERO ONE). split; [reflexivity|]. simpl. lia. }
  assert (above (set_store 1 [Node 1 ZERO ONE; Node 2 ZERO ONE] demo) 0
            (Ptr 1 1)) as Hy.
  { exists (Node 2 ZERO ONE). split; [reflexivity|]. simpl. lia. }
  split.
  - split_and!;
      [split; reflexivity|reflexivity|reflexivity|simpl; lia|exact Hx|exact Hy].
  - apply (order_preserved
             (set_store 1 [Node 1 ZERO ONE; Node 2 ZERO ONE] demo)
             1 (Ptr 1 0) (Ptr 1 1) 0 3);
      [split; reflexivity|reflexivity|reflexivity|simpl; lia|exact Hx|exact Hy].
Defined.

(** ** Joining a node with itself *)

Lemma join_cached_self fuel :
  ∀ c i x st sid,
    session st sid → member st sid x = true → rank x ≤ fuel →
    (∀ z v, c !! join_key z z = Some v → v = z) →
    ∃ c', join_cached fuel c (terminal i) (terminal (negb i)) x x st
            = Ok ((x, c'), st) ∧
          (∀ z v, c' !! join_key z z = Some v → v = z).
Proof.
  induction fuel as [|fuel IH]; intros c i x st sid Hs Hx Hf Hc;
    rewrite join_cached_unfold.
  all: case_decide as H1; [by exists c|].
  all: case_decide as H3;
    [exists c; split; [|done]; destruct H3 as [<-|<-]; done|].
  all: destruct x as [| |s k];
    [by destruct i; simpl in *; tauto..|].
  { simpl in Hf. lia. }
  destruct (member_node _ _ _ _ Hx) as [n Hn].
  pose proof Hx as [-> Hk]%member_Ptr.
  destruct (member_children _ _ _ _ n Hs Hx Hn) as (_ & Hml & _ & Hmr & _).
  destruct (member_children_rank _ _ _ _ n Hs Hx Hn) as [Hrl Hrr].
  unfold bindM at 1, deref. rewrite Hn.
  unfold bindM at 1, deref. rewrite Hn.
  unfold branch_views. rewrite !decide_False by lia.
  destruct (c !! join_key (Ptr sid k) (Ptr sid k)) as [v|] eqn:Hv.
  { rewrite (Hc _ _ Hv). by exists c. }
  simpl in Hf.
  destruct (IH c i (negative n) st sid Hs Hml ltac:(lia) Hc)
    as (c1 & Hrun1 & Hc1).
  destruct (IH c1 i (positive n) st sid Hs Hmr ltac:(lia) Hc1)
    as (c2 & Hrun2 & Hc2).
  unfold bindM at 1. rewrite Hrun1.
  unfold bindM at 1. rewrite Hrun2.
  unfold bindM at 1. rewrite N.min_id.
  simpl in Hn. rewrite (emplace_stored st sid k n Hs Hn).
  eexists. split; [reflexivity|].
  intros z v. rewrite lookup_insert. case_decide as Hk'.
  - intros [= <-]. by destruct (join_key_inj _ _ _ _ Hk') as [[? _]|[? _]].
  - apply Hc2.
Qed.

(** X11.  In a session (the bound store is closed and ordered, see
    [session]), conjoining or disjoining a diagram with itself
    returns that very reference and leaves the whole memory as it was:
    every node the recursion asks for is already stored. *)
Theorem join_idempotent st sid x fuel :
  session st sid → member st sid x = true → rank x ≤ fuel →
  conjoin fuel x x [] st = Ok (x, st) ∧
  disjoin fuel x x [] st = Ok (x, st).
Proof.
  intros Hs Hx Hf.
  assert (∀ z v, (∅ : gmap (gset ref) ref) !! join_key z z = Some v → v = z)
    as Hc by (intros z v; by rewrite lookup_empty).
  destruct (join_cached_self fuel ∅ true x st sid Hs Hx Hf Hc)
    as (c1 & Hrun1 & _).
  destruct (join_cached_self fuel ∅ false x st sid Hs Hx Hf Hc)
    as (c2 & Hrun2 & _).
  unfold conjoin, disjoin. cbn [join]. unfold bindM.
  simpl in Hrun1, Hrun2. by rewrite Hrun1, Hrun2.
Qed.

Lemma join_idempotent_witness :
  (session demo 1 ∧ member demo 1 (Ptr 1 1) = true ∧ rank (Ptr 1 1) ≤ 2) ∧
  conjoin 2 (Ptr 1 1) (Ptr 1 1) [] demo = Ok (Ptr 1 1, demo) ∧
  disjoin 2 (Ptr 1 1) (Ptr 1 1) [] demo = Ok (Ptr 1 1, demo).
Proof.
  split; [split_and!; [split; reflexivity|reflexivity|simpl; lia]|].
  apply (join_idempotent demo 1 (Ptr 1 1) 2);
    [split; reflexivity|reflexivity|simpl; lia].
Defined.

(** ** The memo of [join] *)

Lemma join_cached_hit fuel c i a x y st nx ny v :
  x ≠ i → y ≠ i → ¬ (x = a ∨ y = a) →
  node_at st x = Some nx → node_at st y = Some ny →
  c !! join_key x y = Some v →
  join_cached fuel c i a x y st = Ok ((v, c), st).
Proof.
  intros H1 H2 H3 Hnx Hny Hv.
  rewrite join_cached_unfold, !decide_False by done.
  unfold bindM at 1, deref. rewrite Hnx.
  unfold bindM at 1, deref. rewrite Hny.
  destruct (branch_views x y nx ny) as [[[? ?] ?] ?]. by rewrite Hv.
Qed.

(** X12.  Once [join] with a cache has returned, the same call on the
    returned cache and memory, with the operands in either order and with
    any recursion budget, returns the same reference and changes neither the
    cache nor the memory. *)
Theorem join_memo_rerun fuel c i a x y st v c' st' :
  join_cached fuel c i a x y st = Ok ((v, c'), st') →
  ∀ fuel',
    join_cached fuel' c' i a x y st' = Ok ((v, c'), st') ∧
    join_cached fuel' c' i a y x st' = Ok ((v, c'), st').
Proof.
  intros Hrun fuel'.
  assert (grows st st') as Hg.
  { by eapply (join_cached_stable _ (grows_stable st)). }
  rewrite join_cached_unfold in Hrun.
  case_decide as H1.
  { inv_run. rewrite !(join_cached_unfold fuel').
    rewrite (decide_True (P := (i = i))) by done.
    case_decide as H2; [by subst|]. by rewrite (decide_True (P := (i = i))). }
  case_decide as H2.
  { inv_run. rewrite !(join_cached_unfold fuel').
    rewrite (decide_False (P := (x = i))) by done.
    by rewrite !(decide_True (P := (i = i))). }
  case_decide as H3.
  { inv_run. rewrite !(join_cached_unfold fuel').
    split; repeat (case_decide; try done); tauto. }
  apply bindM_Ok in Hrun as (nx & st1 & Hdx & Hrun).
  apply deref_Ok in Hdx as [Hnx ->].
  apply bindM_Ok in Hrun as (ny & st1 & Hdy & Hrun).
  apply deref_Ok in Hdy as [Hny ->].
  destruct (branch_views x y nx ny) as [[[xl xr] yl] yr].
  assert (c' !! join_key x y = Some v) as Hv.
  { destruct (c !! join_key x y) as [w|] eqn:Hw.
    - by inv_run.
    - destruct fuel as [|fuel]; [done|]. inv_run.
      by rewrite lookup_insert_eq. }
  split.
  - eapply join_cached_hit; eauto using grows_node_at.
  - eapply join_cached_hit; eauto using grows_node_at; [tauto|].
    by rewrite join_key_comm.
Qed.

Lemma join_memo_rerun_witness :
  join_cached 2 ∅ ONE ZERO (Ptr 1 0) (Ptr 1 1) demo
    = Ok ((Ptr 1 2, {[join_key (Ptr 1 0) (Ptr 1 1) := Ptr 1 2]}),
          set_store 1 [Node 0 ZERO ONE; Node 1 ONE ZERO; Node 0 ZERO (Ptr 1 1)] demo) ∧
  ∀ fuel',
    join_cached fuel' {[join_key (Ptr 1 0) (Ptr 1 1) := Ptr 1 2]} ONE ZERO
        (Ptr 1 0) (Ptr 1 1)
        (set_store 1 [Node 0 ZERO ONE; Node 1 ONE ZERO; Node 0 ZERO (Ptr 1 1)] demo)
      = Ok ((Ptr 1 2, {[join_key (Ptr 1 0) (Ptr 1 1) := Ptr 1 2]}),
            set_store 1 [Node 0 ZERO ONE; Node 1 ONE ZERO; Node 0 ZERO (Ptr 1 1)] demo) ∧
    join_cached fuel' {[join_key (Ptr 1 0) (Ptr 1 1) := Ptr 1 2]} ONE ZERO
        (Ptr 1 1) (Ptr 1 0)
        (set_store 1 [Node 0 ZERO ONE; Node 1 ONE ZERO; Node 0 ZERO (Ptr 1 1)] demo)
      = Ok ((Ptr 1 2, {[join_key (Ptr 1 0) (Ptr 1 1) := Ptr 1 2]}),
            set_store 1 [Node 0 ZERO ONE; Node 1 ONE ZERO; Node 0 ZERO (Ptr 1 1)] demo).
Proof.
  assert (join_cached 2 ∅ ONE ZERO (Ptr 1 0) (Ptr 1 1) demo
    = Ok ((Ptr 1 2, {[join_key (Ptr 1 0) (Ptr 1 1) := Ptr 1 2]}),
          set_store 1 [Node 0 ZERO ONE; Node 1 ONE ZERO; Node 0 ZERO (Ptr 1 1)] demo))
    as Hrun by reflexivity.
  split; [exact Hrun|].
  exact (join_memo_rerun 2 ∅ ONE ZERO (Ptr 1 0) (Ptr 1 1) demo (Ptr 1 2)
           _ _ Hrun).
Defined.

(** ** Composed calls *)

Lemma reads_grows st st' env e b :
  grows st st' → reads st env e b → reads st' env e b.
Proof.
  intros Hg. induction 1; try by constructor.
  constructor. by eapply eval_grows.
Qed.

Lemma reads_det st env e :
  ∀ b1 b2, reads st env e b1 → reads st env e b2 → b1 = b2.
Proof.
  induction e as [r|i s|e IH|e1 IH1 e2 IH2|e1 IH1 e2 IH2]; intros b1 b2;
    inversion 1; inversion 1; subst; try done.
  - by eapply eval_det.
  - f_equal. by apply IH.
  - f_equal; [by apply IH1|by apply IH2].
  - f_equal; [by apply IH1|by apply IH2].
Qed.

Lemma reads_total st sid env e :
  session st sid → leaves_in st sid e = true → ∃ b, reads st env e b.
Proof.
  intros Hs.
  induction e as [r|i s|e IH|e1 IH1 e2 IH2|e1 IH1 e2 IH2]; simpl; intros Hl.
  - destruct (member_eval st sid env r Hs Hl) as [b Hb].
    exists b. by constructor.
  - eexists. constructor.
  - destruct (IH Hl) as [b Hb]. eexists. by constructor.
  - apply andb_true_iff in Hl as [Hl1 Hl2].
    destruct (IH1 Hl1) as [b1 Hb1], (IH2 Hl2) as [b2 Hb2].
    eexists. by constructor.
  - apply andb_true_iff in Hl as [Hl1 Hl2].
    destruct (IH1 Hl1) as [b1 Hb1], (IH2 Hl2) as [b2 Hb2].
    eexists. by constructor.
Qed.

Lemma leaves_in_grows st st' sid e :
  grows st st' → leaves_in st sid e = true → leaves_in st' sid e = true.
Proof.
  intros Hg.
  induction e as [r|i s|e IH|e1 IH1 e2 IH2|e1 IH1 e2 IH2]; simpl; try done.
  - by apply member_grows.
  - rewrite !andb_true_iff. intros [??]. split; auto.
  - rewrite !andb_true_iff. intros [??]. split; auto.
Qed.

Lemma build_join_session sid i (op : expr → expr → expr) e1 e2 st
    (m : nat → M ref) :
  (∀ fuel, m fuel =
     letM a := build fuel e1 in
     letM b := build fuel e2 in
     join fuel (terminal i) (terminal (negb i)) a b []) →
  (∀ st env b, reads st env (op e1 e2) b →
     ∃ b1 b2, reads st env e1 b1 ∧ reads st env e2 b2 ∧ b = join_op i b1 b2) →
  (∀ st, session st sid → leaves_in st sid e1 = true →
     ∃ r st', returns (λ fuel, build fuel e1) st r st' ∧
       grows st st' ∧ session st' sid ∧ member st' sid r = true ∧
       ∀ env b, reads st env e1 b → eval st' env r b) →
  (∀ st, session st sid → leaves_in st sid e2 = true →
     ∃ r st', returns (λ fuel, build fuel e2) st r st' ∧
       grows st st' ∧ session st' sid ∧ member st' sid r = true ∧
       ∀ env b, reads st env e2 b → eval st' env r b) →
  session st sid →
  leaves_in st sid e1 = true → leaves_in st sid e2 = true →
  ∃ r st', returns m st r st' ∧
    grows st st' ∧ session st' sid ∧ member st' sid r = true ∧
    ∀ env b, reads st env (op e1 e2) b → eval st' env r b.
Proof.
  intros Hm Hop IH1 IH2 Hs Hl1 Hl2.
  destruct (IH1 st Hs Hl1) as (a & st1 & Hr1 & Hg1 & Hs1 & Hm1 & Hsem1).
  destruct (IH2 st1 Hs1 (leaves_in_grows _ _ _ _ Hg1 Hl2))
    as (b & st2 & Hr2 & Hg2 & Hs2 & Hm2 & Hsem2).
  destruct (join_pair_returns st2 sid i a b Hs2
              (member_grows _ _ _ _ Hg2 Hm1) Hm2)
    as (r & st3 & Hr3 & Hg3 & Hs3 & Hm3 & Hsem3).
  exists r, st3. split_and!; try done.
  - destruct Hr1 as [f1 H1], Hr2 as [f2 H2], Hr3 as [f3 H3].
    exists ((f1 `max` f2) `max` f3). intros fuel Hf.
    rewrite Hm. unfold bindM.
    rewrite (H1 fuel) by lia. rewrite (H2 fuel) by lia. apply H3. lia.
  - by do 2 (etrans; [done|]).
  - intros env v Hv.
    destruct (Hop st env v Hv) as (b1 & b2 & Hb1 & Hb2 & ->).
    apply Hsem3.
    + eapply eval_grows; [exact Hg2|by apply Hsem1].
    + apply Hsem2. by eapply reads_grows.
Qed.

Lemma build_session sid e :
  ∀ st, session st sid → leaves_in st sid e = true →
    ∃ r st', returns (λ fuel, build fuel e) st r st' ∧
      grows st st' ∧ session st' sid ∧ member st' sid r = true ∧
      ∀ env b, reads st env e b → eval st' env r b.
Proof.
  induction e as [r|i s|e IH|e1 IH1 e2 IH2|e1 IH1 e2 IH2]; intros st Hs Hl.
  - exists r, st. split_and!; try done.
    + by exists 0.
    + intros env b. by inversion 1.
  - destruct (literal_session i s st sid Hs)
      as (r & st' & Hrun & Hg & Hs' & Hm & Hsem).
    exists r, st'. split_and!; try done.
    + by exists 0.
    + intros env b. inversion 1; subst. apply Hsem.
  - destruct (IH st Hs Hl) as (a & st1 & Hr1 & Hg1 & Hs1 & Hm1 & Hsem1).
    destruct (invert_returns st1 sid a Hs1 Hm1)
      as (r & st2 & Hr2 & Hg2 & Hs2 & Hm2 & Hsem2).
    exists r, st2. split_and!; try done.
    + exact (returns_bind (λ fuel, build fuel e) (λ fuel a, invert fuel a)
               st a st1 r st2 Hr1 Hr2).
    + by etrans.
    + intros env b. inversion 1; subst. by apply Hsem2, Hsem1.
  - simpl in Hl. apply andb_true_iff in Hl as [Hl1 Hl2].
    apply (build_join_session sid true And e1 e2 st
             (λ fuel, build fuel (And e1 e2))); try done.
    intros st0 env b. inversion 1; subst. by eexists _, _.
  - simpl in Hl. apply andb_true_iff in Hl as [Hl1 Hl2].
    apply (build_join_session sid false Or e1 e2 st
             (λ fuel, build fuel (Or e1 e2))); try done.
    intros st0 env b. inversion 1; subst. by eexists _, _.
Qed.

(** X14.  Canonicity across composed calls.  Within a session (the bound
    store is closed and ordered, see [session]), take two
    expressions over [literal], [invert], [conjoin] and [disjoin] whose
    leaves are references of the session, and build one after the other:
    both builds return, and they return the same reference exactly when the
    two expressions read the same under every assignment. *)
Theorem build_canonical st sid e1 e2 :
  session st sid →
  leaves_in st sid e1 = true → leaves_in st sid e2 = true →
  ∃ r1 st1 r2 st2,
    returns (λ fuel, build fuel e1) st r1 st1 ∧
    returns (λ fuel, build fuel e2) st1 r2 st2 ∧
    (r1 = r2 ↔ ∀ env b, reads st env e1 b ↔ reads st env e2 b).
Proof.
  intros Hs Hl1 Hl2.
  destruct (build_session sid e1 st Hs Hl1)
    as (r1 & st1 & Hr1 & Hg1 & Hs1 & Hm1 & Hsem1).
  destruct (build_session sid e2 st1 Hs1 (leaves_in_grows _ _ _ _ Hg1 Hl2))
    as (r2 & st2 & Hr2 & Hg2 & Hs2 & Hm2 & Hsem2).
  exists r1, st1, r2, st2. split_and!; try done.
  assert (∀ env b, reads st env e1 b → eval st2 env r1 b) as H1.
  { intros env b Hb. eapply eval_grows; [exact Hg2|by apply Hsem1]. }
  assert (∀ env b, reads st env e2 b → eval st2 env r2 b) as H2.
  { intros env b Hb. apply Hsem2. by eapply reads_grows. }
  split.
  - intros <- env b.
    destruct (reads_total st sid env e1 Hs Hl1) as [b1 Hb1].
    destruct (reads_total st sid env e2 Hs Hl2) as [b2 Hb2].
    assert (b1 = b2) as <- by (eapply eval_det; [by apply H1|by apply H2]).
    split; intros Hb.
    + by rewrite (reads_det _ _ _ _ _ Hb Hb1).
    + by rewrite (reads_det _ _ _ _ _ Hb Hb2).
  - intros Heq.
    apply (session_canonical st2 sid Hs2 (rank r1 + rank r2) r1 r2);
      [done|by eapply member_grows|done|].
    apply equiv_intro. intros env.
    destruct (reads_total st sid env e1 Hs Hl1) as [b1 Hb1].
    exists b1. split; [by apply H1|]. apply H2. by apply Heq.
Qed.

Lemma build_canonical_witness :
  (session demo 1 ∧
   leaves_in demo 1 (And (Leaf (Ptr 1 0)) (Lit 2 true)) = true ∧
   leaves_in demo 1
     (Not (Or (Not (Lit 2 true)) (Not (Leaf (Ptr 1 0))))) = true) ∧
  ∃ r1 st1 r2 st2,
    returns (λ fuel, build fuel (And (Leaf (Ptr 1 0)) (Lit 2 true)))
            demo r1 st1 ∧
    returns (λ fuel,
               build fuel (Not (Or (Not (Lit 2 true)) (Not (Leaf (Ptr 1 0))))))
            st1 r2 st2 ∧
    (r1 = r2 ↔
     ∀ env b,
       reads demo env (And (Leaf (Ptr 1 0)) (Lit 2 true)) b ↔
       reads demo env
         (Not (Or (Not (Lit 2 true)) (Not (Leaf (Ptr 1 0))))) b).
Proof.
  split; [split_and!; [split; reflexivity|reflexivity|reflexivity]|].
  apply (build_canonical demo 1); [split; reflexivity|reflexivity|reflexivity].
Defined.

(** ** The variadic [join] *)



(** ** The shape of an inverted node *)

(** X6.  In a session (the bound store is closed and ordered, see
    [session]), [invert] of a stored node never collapses to a
    sentinel: it returns a stored node that tests the same variable, with
    two different children, its negative child reading as the complement of
    the operand's negative child and its positive child as the complement
    of the operand's positive child. *)
Theorem invert_keeps_variable st sid k n fuel :
  session st sid → store_of st sid !! k = Some n → S k ≤ fuel →
  ∃ j st' n',
    invert fuel (Ptr sid k) st = Ok (Ptr sid j, st') ∧
    store_of st' sid !! j = Some n' ∧
    depth n' = depth n ∧
    negative n' ≠ positive n' ∧
    (∀ env b, eval st env (negative n) b →
              eval st' env (negative n') (negb b)) ∧
    (∀ env b, eval st env (positive n) b →
              eval st' env (positive n') (negb b)).
Proof.
  intros Hs Hn Hf. destruct fuel as [|f]; [lia|].
  assert (member st sid (Ptr sid k) = true) as Hx.
  { apply member_Ptr. split; [done|]. by eapply lookup_lt_Some. }
  destruct (session_lookup _ _ _ _ Hs Hn) as (Hne & _ & _).
  destruct (member_children st sid sid k n Hs Hx Hn) as (_ & Hml & _ & Hmr & _).
  destruct (member_children_rank st sid sid k n Hs Hx Hn) as [Hrl Hrr].
  destruct (invert_cached_correct f ∅ (negative n) st sid (rank (negative n)))
    as (l' & c1 & st1 & Hrun1 & Hg1 & _ & Hc1 & Hsem1);
    [apply Hs|by eapply member_wf|lia|apply inv_cache_ok_empty|].
  destruct (invert_cached_session f ∅ (negative n) st sid l' c1 st1 Hs Hml
              (inv_cache_mem_empty _ _) Hrun1) as (_ & Hs1 & Hml' & Hcm1 & _).
  pose proof (member_grows _ _ _ _ Hg1 Hmr) as Hmr1.
  destruct (invert_cached_correct f c1 (positive n) st1 sid
              (rank (positive n)))
    as (r' & c2 & st2 & Hrun2 & Hg2 & _ & _ & Hsem2);
    [apply Hs1|by eapply member_wf|lia|done|].
  destruct (invert_cached_session f c1 (positive n) st1 sid r' c2 st2 Hs1 Hmr1
              Hcm1 Hrun2) as (_ & Hs2 & Hmr' & _ & _).
  assert (l' ≠ r') as Hne'.
  { intros Heq. apply Hne.
    apply (session_canonical st sid Hs
             (rank (negative n) + rank (positive n))); [done..|].
    apply equiv_intro. intros env.
    destruct (member_eval st sid env (negative n) Hs Hml) as [bl Hbl].
    destruct (member_eval st sid env (positive n) Hs Hmr) as [br Hbr].
    assert (negb bl = negb br) as Hb.
    { apply (eval_det st2 env r').
      - rewrite <- Heq. eapply eval_grows; [exact Hg2|by apply Hsem1].
      - apply Hsem2. by eapply eval_grows. }
    assert (bl = br) as -> by (by destruct bl, br). by exists br. }
  destruct (emplace_total (depth n) l' r' st2 sid) as (v & st3 & He);
    [apply Hs2|].
  pose proof (emplace_grows _ _ _ _ _ _ He) as Hg3.
  pose proof He as He'.
  apply emplace_Ok in He'
    as [(? & _)|(_ & sid' & j & Hb' & -> & Hj & _)]; [done|].
  assert (sid' = sid) as ->.
  { destruct Hs2 as [Hb2 _]. congruence. }
  exists j, st3, (Node (depth n) l' r'). split_and!; try done.
  - unfold invert. rewrite invert_cached_unfold, !decide_False by done.
    rewrite lookup_empty. unfold bindM, deref. simpl node_at. rewrite Hn.
    by rewrite Hrun1, Hrun2, He.
  - intros env b Hb. simpl.
    eapply eval_grows; [exact Hg3|].
    eapply eval_grows; [exact Hg2|]. by apply Hsem1.
  - intros env b Hb. simpl.
    eapply eval_grows; [exact Hg3|].
    apply Hsem2. by eapply eval_grows.
Qed.

Lemma invert_keeps_variable_witness :
  (session demo 1 ∧ store_of demo 1 !! 1 = Some (Node 1 ONE ZERO) ∧ 2 ≤ 2) ∧
  ∃ j st' n',
    invert 2 (Ptr 1 1) demo = Ok (Ptr 1 j, st') ∧
    store_of st' 1 !! j = Some n' ∧
    depth n' = depth (Node 1 ONE ZERO) ∧
    negative n' ≠ positive n' ∧
    (∀ env b, eval demo env (negative (Node 1 ONE ZERO)) b →
              eval st' env (negative n') (negb b)) ∧
    (∀ env b, eval demo env (positive (Node 1 ONE ZERO)) b →
              eval st' env (positive n') (negb b)).
Proof.
  split; [split_and!; [split; reflexivity|reflexivity|lia]|].
  apply (invert_keeps_variable demo 1 1 (Node 1 ONE ZERO) 2);
    [split; reflexivity|reflexivity|lia].
Defined.
